(** * A shallow embedding of the GPT training and generation code

    The development follows the layout of the Python sources: the dataset
    ([TokenizedTextDataset]), the positional table
    ([sinusoidal_positional_encoding]), the learning-rate schedule
    ([WarmupCosineLR]), the model ([GPTModel]: mask expansion, forward pass,
    masked loss, weight tying) and the decoder ([top_p_filtering],
    [generate_text]).

    Conventions.
    - Python exceptions are values of [exn]; a function that may raise
      returns a [result].
    - Floating-point tensors are idealised as lists of real numbers; the
      places where the source relies on IEEE special values (the mean of
      an empty selection, the filter value minus infinity, the division by
      a temperature of zero) are modelled by explicit constructors or
      branches.
    - What the libraries leave open is a parameter: the order [torch.sort]
      gives to equal values, the rounding of a floating-point product, the
      random draw, and what the text layer reads at a given offset of a
      file.
    - Integer tensors are lists of [Z]; shapes are the lengths of nested
      lists. *)

From Stdlib Require Import Reals Lra Lia ZArith List String Ascii Bool.
From stdpp Require Import base list sorting gmap.

Set Default Proof Using "Type".

(** ** Python results *)

Inductive exn : Type :=
| ValueError (msg : string)
| IndexError
| ZeroDivisionError
| RuntimeError (msg : string).

Inductive result (A : Type) : Type :=
| Ok (a : A)
| Raise (e : exn).
Arguments Ok {A} a.
Arguments Raise {A} e.

Definition rbind {A B} (r : result A) (k : A -> result B) : result B :=
  match r with
  | Ok a => k a
  | Raise e => Raise e
  end.

Notation "'let!' x ':=' r 'in' k" := (rbind r (fun x => k))
  (at level 10, x name, r at level 100, k at level 200, only parsing).

Fixpoint rmap {A B} (f : A -> result B) (l : list A) : result (list B) :=
  match l with
  | [] => Ok []
  | a :: l' => let! b := f a in let! bs := rmap f l' in Ok (b :: bs)
  end.

(** ** The dataset: [TokenizedTextDataset] *)

Module Dataset.

(** [str.isspace] on ASCII characters: tab, line feed, vertical tab, form
    feed, carriage return, the four separators 28..31 and the space. The
    token files are ASCII: digits separated by spaces. *)
Definition is_space (c : ascii) : bool :=
  let n := nat_of_ascii c in
  ((9 <=? n) && (n <=? 13)) || ((28 <=? n) && (n <=? 31)) || (n =? 32).

(** [str.split()] without argument: maximal runs of non-space characters. *)
Fixpoint split_from (cur : list ascii) (s : list ascii) : list string :=
  match s with
  | [] => match cur with [] => [] | _ => [string_of_list_ascii cur] end
  | c :: s' =>
      if is_space c then
        match cur with
        | [] => split_from [] s'
        | _ => string_of_list_ascii cur :: split_from [] s'
        end
      else split_from (cur ++ [c]) s'
  end.

Definition split (s : string) : list string :=
  split_from [] (list_ascii_of_string s).

(** [str.strip()]. *)
Fixpoint lstrip (s : list ascii) : list ascii :=
  match s with
  | c :: s' => if is_space c then lstrip s' else s
  | [] => []
  end.

Definition strip (s : string) : string :=
  string_of_list_ascii
    (rev (lstrip (rev (lstrip (list_ascii_of_string s))))).

(** [int(word)] in base ten: white space around the literal is dropped;
    what is left has to be an optional sign followed by decimal digits in
    which single underscores may separate digits. Anything else is a
    [ValueError]. The white space [int] drops is, of the ASCII characters,
    tab to carriage return and the space: not the separators 28..31 that
    [str.strip] drops as well. *)
Definition is_int_space (c : ascii) : bool :=
  let n := nat_of_ascii c in
  ((9 <=? n) && (n <=? 13)) || (n =? 32).

Fixpoint drop_int_space (s : list ascii) : list ascii :=
  match s with
  | c :: s' => if is_int_space c then drop_int_space s' else s
  | [] => []
  end.

Definition digit_of (c : ascii) : option Z :=
  let n := nat_of_ascii c in
  if (48 <=? n) && (n <=? 57) then Some (Z.of_nat (n - 48)) else None.

Inductive int_state := AtStart | AfterDigit | AfterUnderscore.

Fixpoint digits (st : int_state) (acc : Z) (s : list ascii) : option Z :=
  match s with
  | [] => match st with AfterDigit => Some acc | _ => None end
  | c :: s' =>
      match digit_of c with
      | Some d => digits AfterDigit (10 * acc + d) s'
      | None =>
          if (nat_of_ascii c =? 95) then
            match st with
            | AfterDigit => digits AfterUnderscore acc s'
            | _ => None
            end
          else None
      end
  end.

Definition py_int (w : string) : result Z :=
  let invalid := Raise (ValueError "invalid literal for int() with base 10") in
  match rev (drop_int_space (rev (drop_int_space (list_ascii_of_string w)))) with
  | c :: s' =>
      if nat_of_ascii c =? 45 then
        match digits AtStart 0 s' with Some z => Ok (- z)%Z | None => invalid end
      else if nat_of_ascii c =? 43 then
        match digits AtStart 0 s' with Some z => Ok z | None => invalid end
      else
        match digits AtStart 0 (c :: s') with Some z => Ok z | None => invalid end
  | [] => invalid
  end.

(** [list(map(int, line.split()))] *)
Definition parse_line (line : string) : result (list Z) :=
  rmap py_int (split line).

(** [torch.tensor(l, dtype=torch.long)]: every entry has to fit a signed
    64-bit integer. *)
Definition is_int64 (z : Z) : bool :=
  ((- 2 ^ 63 <=? z) && (z <? 2 ^ 63))%Z.

Definition long_tensor (l : list Z) : result (list Z) :=
  if forallb is_int64 l then Ok l
  else Raise (RuntimeError "Overflow when unpacking long").

(** The dataset object and the file behind it. [file_lines] is what
    iterating over the open file yields: its lines as the text layer
    decodes them, line ends included. [seek_readline offset] is what
    [file.seek(offset)] followed by [file.readline()] returns on a fresh
    handle: the text layer takes [offset] for a position in the bytes of
    the file, so this need not be a line of [file_lines].

    With [in_memory] the constructor stores the stripped lines in [data];
    otherwise it records in [line_offsets] the running total of the
    lengths [len(line)], and [__getitem__] seeks to the recorded offset and
    strips the line it reads there. *)
Record TokenizedTextDataset := {
  file_lines : list string;
  seek_readline : nat -> result string;
  sequence_length : nat;
  padding_token : Z;
  in_memory : bool
}.

Definition data (ds : TokenizedTextDataset) : list string :=
  if in_memory ds then map strip (file_lines ds) else [].

(** The loop of [_index_file_positions]. *)
Fixpoint offsets_from (offset : nat) (lines : list string) : list nat :=
  match lines with
  | [] => []
  | line :: lines' => offset :: offsets_from (offset + String.length line) lines'
  end.

Definition line_offsets (ds : TokenizedTextDataset) : list nat :=
  if in_memory ds then [] else offsets_from 0 (file_lines ds).

Definition read_line (ds : TokenizedTextDataset) (idx : nat) : result string :=
  if in_memory ds then
    match data ds !! idx with
    | Some line => Ok line
    | None => Raise IndexError
    end
  else
    match line_offsets ds !! idx with
    | Some offset =>
        let! line := seek_readline ds offset in
        Ok (strip line)
    | None => Raise IndexError
    end.

(** The padding-or-truncating step. *)
Definition pad_or_truncate (ds : TokenizedTextDataset) (sequence : list Z) : list Z :=
  if length sequence <? sequence_length ds then
    sequence ++ replicate (sequence_length ds - length sequence) (padding_token ds)
  else
    take (sequence_length ds) sequence.

Definition attention_mask_of (ds : TokenizedTextDataset) (sequence : list Z) : list Z :=
  map (fun token => if bool_decide (token <> padding_token ds) then 1%Z else 0%Z)
      sequence.

(** [TokenizedTextDataset.__getitem__]; [l[:-1]] is [removelast l] and
    [l[1:]] is [tail l]. *)
Definition getitem (ds : TokenizedTextDataset) (idx : nat)
  : result (list Z * list Z * list Z) :=
  let! line := read_line ds idx in
  let! sequence := parse_line line in
  let sequence := pad_or_truncate ds sequence in
  let attention_mask := attention_mask_of ds sequence in
  let! input_sequence := long_tensor (removelast sequence) in
  let! target_sequence := long_tensor (tail sequence) in
  let attention_mask := removelast attention_mask in
  Ok (input_sequence, target_sequence, attention_mask).

(** The dataset of the specification's example: one line, [S = 4]. *)
Definition example_dataset : TokenizedTextDataset :=
  {| file_lines := ["1 2 3 4 5"%string];
     seek_readline := fun _ => Ok "1 2 3 4 5"%string;
     sequence_length := 4;
     padding_token := 0;
     in_memory := true |}.

End Dataset.

(** ** The positional table: [sinusoidal_positional_encoding] *)

Module Util.
Local Open Scope R_scope.

(** [torch.arange(0, embed_size, 2).float()]: the even numbers below
    [embed_size]; there are [ceil(embed_size / 2)] of them. *)
Definition arange_even (embed_size : nat) : list R :=
  map (fun i => INR (2 * i)) (seq 0 (Nat.div2 (embed_size + 1))).

(** The number of columns selected by the slice [start::2] of a row of
    [embed_size] columns. *)
Definition strided_columns (start embed_size : nat) : nat :=
  Nat.div2 (embed_size + 1 - start).

(** Broadcasting of the source of a slice assignment along the column
    dimension: equal sizes are kept, a size of one is expanded, any other
    combination is a shape error. *)
Definition expand_columns (k : nat) (m : nat) (src : list (list R))
  : result (list (list R)) :=
  if (m =? k)%nat then Ok src
  else if (m =? 1)%nat then Ok (map (fun row => replicate k (hd 0 row)) src)
  else Raise (RuntimeError "The expanded size of the tensor must match the existing size").

(** Writing [src] into the columns [0, 2, 4, ...] of [row]. *)
Fixpoint write_even (row src : list R) : list R :=
  match row, src with
  | _ :: row', s :: src' =>
      s :: match row' with
           | y :: row'' => y :: write_even row'' src'
           | [] => []
           end
  | _, _ => row
  end.

(** Writing [src] into the columns [1, 3, 5, ...] of [row]. *)
Definition write_odd (row src : list R) : list R :=
  match row with
  | x :: row' => x :: write_even row' src
  | [] => []
  end.

(** [pe[:, start::2] = src] for [start] 0 or 1, where [src] has [m]
    columns. *)
Definition assign_columns (start embed_size : nat) (pe : list (list R))
    (m : nat) (src : list (list R)) : result (list (list R)) :=
  let! src' := expand_columns (strided_columns start embed_size) m src in
  Ok (zip_with (if (start =? 0)%nat then write_even else write_odd) pe src').

Definition sinusoidal_positional_encoding (embed_size max_len : nat)
  : result (list (list (list R))) :=
  let pe := replicate max_len (replicate embed_size 0) in
  let position := map INR (seq 0 max_len) in
  let! factor :=
    (if (embed_size =? 0)%nat then Raise ZeroDivisionError
     else Ok (- ln 10000 / INR embed_size)) in
  let div_term := map (fun e => exp (e * factor)) (arange_even embed_size) in
  let m := length div_term in
  let angles := map (fun pos => map (fun d => pos * d) div_term) position in
  let! pe := assign_columns 0 embed_size pe m (map (map sin) angles) in
  let! pe := assign_columns 1 embed_size pe m (map (map cos) angles) in
  Ok [pe].

End Util.

(** ** The learning-rate schedule: [WarmupCosineLR] *)

Module Scheduler.
Local Open Scope R_scope.

Record WarmupCosineLR := {
  warmup_steps : Z;
  total_steps : Z;
  min_lr : R;
  base_lrs : list R;
  last_epoch : Z
}.

(** Python's true division of two integers. *)
Definition true_div (a b : Z) : result R :=
  if (b =? 0)%Z then Raise ZeroDivisionError else Ok (IZR a / IZR b).

Definition get_lr (self : WarmupCosineLR) : result (list R) :=
  let! lr_scale :=
    (if (last_epoch self <? warmup_steps self)%Z then
       true_div (last_epoch self) (warmup_steps self)
     else
       let! progress :=
         true_div (last_epoch self - warmup_steps self)
                  (total_steps self - warmup_steps self) in
       Ok (0.5 * (1 + cos progress))) in
  Ok (map (fun base_lr => base_lr * lr_scale + min_lr self) (base_lrs self)).

(** The schedule as the specification words it, with the factor pi inside
    the cosine. *)
Definition spec_scale (warmup total t : Z) : R :=
  if (t <? warmup)%Z then IZR t / IZR warmup
  else 0.5 * (1 + cos (PI * (IZR (t - warmup) / IZR (total - warmup)))).

Definition spec_rate (base_rate min_rate : R) (warmup total t : Z) : R :=
  base_rate * spec_scale warmup total t + min_rate.

(** A schedule at its last step: one warmup step out of two, the
    optimizer's rate 0.001 and the default minimum rate. *)
Definition schedule_at_end : WarmupCosineLR :=
  {| warmup_steps := 1;
     total_steps := 2;
     min_lr := 0.000001;
     base_lrs := [0.001];
     last_epoch := 2 |}.

End Scheduler.

(** ** Tensors, the parameter store and the event log *)

Module Torch.
Local Open Scope R_scope.

Definition tensor3 := list (list (list R)).
Definition mask2 := list (list Z).
Definition mask3 := list (list (list Z)).

(** Parameters are heap objects: a module field holds a reference, the
    store maps references to the tensor currently held. *)
Abbreviation loc := positive.

Inductive tensor : Type :=
| T1 (v : list R)
| T2 (w : list (list R))
| T3 (p : tensor3).

Abbreviation store := (gmap loc tensor).

Definition alloc (s : store) (v : tensor) : loc * store :=
  let l := fresh (dom s) in (l, <[l := v]> s).

Definition read2 (s : store) (l : loc) : result (list (list R)) :=
  match s !! l with
  | Some (T2 w) => Ok w
  | _ => Raise (RuntimeError "expected a 2-D parameter")
  end.

Definition read3 (s : store) (l : loc) : result tensor3 :=
  match s !! l with
  | Some (T3 p) => Ok p
  | _ => Raise (RuntimeError "expected a 3-D parameter")
  end.

(** What a run leaves behind: lines printed (the literal text of the line,
    without the values formatted into it), calls of the model, calls of the
    attention primitive with the mask they receive, and draws from the
    categorical distribution. *)
Inductive event : Type :=
| EvPrint (s : string)
| EvForward (x : list (list Z)) (mask : option mask2)
| EvAttention (attn_mask : option mask3)
| EvSample (probabilities : list R).

(** Computations that log events and may raise. *)
Definition W (A : Type) : Type := list event -> result A * list event.

Definition ret {A} (a : A) : W A := fun log => (Ok a, log).

Definition bind {A B} (c : W A) (k : A -> W B) : W B :=
  fun log =>
    match c log with
    | (Ok a, log') => k a log'
    | (Raise e, log') => (Raise e, log')
    end.

Definition tell (e : event) : W unit := fun log => (Ok tt, log ++ [e]).

Definition lift {A} (r : result A) : W A := fun log => (r, log).

Notation "'do!' x ':=' c 'in' k" := (bind c (fun x => k))
  (at level 10, x name, c at level 100, k at level 200, only parsing).

Fixpoint foldW {A B} (f : A -> B -> W A) (l : list B) (a : A) : W A :=
  match l with
  | [] => ret a
  | b :: l' => do! a' := f a b in foldW f l' a'
  end.

(** [emits P c]: whatever the log [c] starts from, [c] only appends to it,
    and every event it appends satisfies [P]. *)
Definition emits {A} (P : event -> Prop) (c : W A) : Prop :=
  forall log, exists new, (c log).2 = log ++ new /\ Forall P new.

(** An event that involves no attention mask: a call of the model without
    mask, an attention call without mask, or any other event. *)
Definition unmasked (e : event) : Prop :=
  match e with
  | EvForward _ mask => mask = None
  | EvAttention attn_mask => attn_mask = None
  | _ => True
  end.

(** Broadcasting of one dimension of a binary operation. *)
Definition broadcast {A B C} (f : A -> B -> result C) (a : list A) (b : list B)
  : result (list C) :=
  if (length a =? length b)%nat then rmap (fun p => f p.1 p.2) (zip a b)
  else
    match a, b with
    | [a0], _ => rmap (f a0) b
    | _, [b0] => rmap (fun x => f x b0) a
    | _, _ => Raise (RuntimeError "The size of tensor a must match the size of tensor b")
    end.

Definition add3 : tensor3 -> tensor3 -> result tensor3 :=
  broadcast (broadcast (broadcast (fun x y => Ok (x + y)))).

(** [x.transpose(0, 1)] for a tensor whose dimension 1 has size [cols]. *)
Definition transpose01 {A} (cols : nat) (x : list (list A)) : list (list A) :=
  map (fun j => omap (fun row => row !! j) x) (seq 0 cols).

Definition sum_list (l : list R) : R := foldr Rplus 0 l.

Definition dot (u v : list R) : R := sum_list (zip_with Rmult u v).

(** [nn.Linear]: [y = x W^T + b], the bias being optional. *)
Definition linear (w : list (list R)) (b : option (list R)) (x : tensor3) : tensor3 :=
  map (map (fun v =>
    let y := map (fun w_row => dot v w_row) w in
    match b with
    | Some b => zip_with Rplus y b
    | None => y
    end)) x.

(** [nn.Embedding]: row lookup, out of range is an [IndexError]. *)
Definition embedding (w : list (list R)) (x : list (list Z)) : result tensor3 :=
  rmap (rmap (fun token =>
    if (token <? 0)%Z then Raise IndexError
    else match w !! Z.to_nat token with
         | Some row => Ok row
         | None => Raise IndexError
         end)) x.

Definition softmax (l : list R) : list R :=
  let e := map exp l in map (fun x => x / sum_list e) e.

End Torch.

(** ** The model: [GPTTransformerBlock] and [GPTModel] *)

Module Model.
Import Torch.
Local Open Scope R_scope.

(** One transformer layer. The attention, normalisation and feed-forward
    modules are library modules; they read their parameters from the store. *)
Record GPTTransformerBlock := {
  block_params : list loc;
  attention : store -> tensor3 -> tensor3 -> tensor3 -> option mask3 -> result tensor3;
  dropout : tensor3 -> tensor3;
  norm1 : store -> tensor3 -> tensor3;
  norm2 : store -> tensor3 -> tensor3;
  feed_forward : store -> tensor3 -> tensor3
}.

(** [GPTTransformerBlock.forward] *)
Definition block_forward (self : GPTTransformerBlock) (s : store)
    (x : tensor3) (mask : option mask3) : W tensor3 :=
  do! _ := tell (EvAttention mask) in
  do! attention_output := lift (attention self s x x x mask) in
  do! y := lift (add3 (dropout self attention_output) x) in
  let x := norm1 self s y in
  let forward_output := feed_forward self s x in
  do! z := lift (add3 (dropout self forward_output) x) in
  ret (norm2 self s z).

Record Linear := {
  weight : loc;
  bias : option loc
}.

Record GPTModel := {
  embed_size : nat;
  num_layers : nat;
  heads : nat;
  vocab_size : nat;
  batch_size : nat;
  sequence_length : nat;
  max_epochs : nat;
  dataset_length : nat;
  embedding_weight : loc;
  pos_embbedings : loc;
  layers : list GPTTransformerBlock;
  output_layer : Linear
}.

(** The hyperparameters and the values the constructor draws or reads:
    the initial embedding and projection matrices, the number of lines of
    the training file and the library constructor of a layer. *)
Record init_args := {
  a_embed_size : nat;
  a_num_layers : nat;
  a_heads : nat;
  a_vocab_size : nat;
  a_batch_size : nat;
  a_sequence_length : nat;
  a_max_epochs : nat;
  a_dataset_length : nat;
  a_embedding_init : list (list R);
  a_linear_init : list (list R);
  a_new_block : store -> GPTTransformerBlock * store
}.

Fixpoint new_layers (mk : store -> GPTTransformerBlock * store) (n : nat)
    (s : store) : list GPTTransformerBlock * store :=
  match n with
  | O => ([], s)
  | S n' =>
      let '(b, s1) := mk s in
      let '(bs, s2) := new_layers mk n' s1 in
      (b :: bs, s2)
  end.

(** [GPTModel.__init__]. The projection is first built with a parameter of
    its own and without bias; its [weight] field is then rebound to the
    embedding's parameter. *)
Definition init (a : init_args) (s : store) : result (GPTModel * store) :=
  let '(embedding, s) := alloc s (T2 (a_embedding_init a)) in
  let! pe := Util.sinusoidal_positional_encoding (a_embed_size a) (a_sequence_length a) in
  let '(pos, s) := alloc s (T3 pe) in
  let '(blocks, s) := new_layers (a_new_block a) (a_num_layers a) s in
  let '(w, s) := alloc s (T2 (a_linear_init a)) in
  let output := {| weight := w; bias := None |} in
  let output := {| weight := embedding; bias := bias output |} in
  Ok ({| embed_size := a_embed_size a;
         num_layers := a_num_layers a;
         heads := a_heads a;
         vocab_size := a_vocab_size a;
         batch_size := a_batch_size a;
         sequence_length := a_sequence_length a;
         max_epochs := a_max_epochs a;
         dataset_length := a_dataset_length a;
         embedding_weight := embedding;
         pos_embbedings := pos;
         layers := blocks;
         output_layer := output |}, s).

(** [self.parameters()]: every parameter object once. *)
Definition parameters (self : GPTModel) : list loc :=
  remove_dups
    (pos_embbedings self :: embedding_weight self ::
     concat (map block_params (layers self)) ++
     weight (output_layer self) ::
     match bias (output_layer self) with Some b => [b] | None => [] end).

(** One optimizer step: every parameter is updated in place; [update] is
    whatever the optimizer computes from the gradients and its own state. *)
Definition optimizer_step (self : GPTModel) (update : loc -> tensor -> tensor)
    (s : store) : store :=
  foldr (fun l s => alter (update l) l s) s (parameters self).

(** *** Mask expansion *)

Definition unsqueeze1 {A} (t : list (list A)) : list (list (list A)) :=
  map (fun row => [row]) t.

(** [t.repeat(1, n, 1)]: tiling along dimension 1. *)
Definition repeat1 {A} (n : nat) (t : list (list (list A))) : list (list (list A)) :=
  map (fun block => concat (replicate n block)) t.

Fixpoint chunks {A} (k n : nat) (l : list A) : list (list A) :=
  match k with
  | O => []
  | S k' => take n l :: chunks k' n (drop n l)
  end.

(** [t.view(d0, d1, d2)] of a contiguous tensor given by its elements in
    row-major order. *)
Definition view3 {A} (d0 d1 d2 : nat) (flat : list A)
  : result (list (list (list A))) :=
  if (length flat =? d0 * d1 * d2)%nat
  then Ok (chunks d0 d1 (chunks (d0 * d1) d2 flat))
  else Raise (RuntimeError "shape is invalid for input size").

(** [GPTModel.create_mask] *)
Definition create_mask {A} (num_heads : nat) (mask : list (list A))
    (current_seq_length : nat) : result (list (list (list A))) :=
  let batch_size := length mask in
  let mask := unsqueeze1 mask in
  let mask := repeat1 num_heads mask in
  let! mask := view3 (batch_size * num_heads) 1 current_seq_length
                     (concat (concat mask)) in
  let mask := repeat1 current_seq_length mask in
  Ok mask.

(** *** [GPTModel.forward] *)

Definition forward (self : GPTModel) (s : store) (x : list (list Z))
    (mask : option mask2) : W tensor3 :=
  do! _ := tell (EvForward x mask) in
  do! w := lift (read2 s (embedding_weight self)) in
  do! x := lift (embedding w x) in
  let current_seq_length := length (hd [] x) in
  do! pos := lift (read3 s (pos_embbedings self)) in
  do! x := lift (add3 x (map (take current_seq_length) pos)) in
  let x := transpose01 current_seq_length x in
  do! mask :=
    (match mask with
     | Some m =>
         do! m' := lift (create_mask (heads self) m current_seq_length) in
         ret (Some m')
     | None =>
         do! _ := tell (EvPrint "Mask is None") in
         ret None
     end) in
  do! x := foldW (fun x layer => block_forward layer s x mask) (layers self) x in
  do! w := lift (read2 s (weight (output_layer self))) in
  do! b :=
    (match bias (output_layer self) with
     | Some l =>
         match s !! l with
         | Some (T1 v) => ret (Some v)
         | _ => lift (Raise (RuntimeError "expected a 1-D parameter"))
         end
     | None => ret None
     end) in
  ret (linear w b x).

(** *** The masked loss *)

(** The value of a loss: a number, or the IEEE not-a-number that the mean
    of no terms evaluates to. *)
Inductive loss : Type :=
| Finite (r : R)
| NaN.

(** The negative log-likelihood of class [t] under the softmax of [row]. *)
Definition nll (row : list R) (t : Z) : R :=
  ln (sum_list (map exp row)) - nth (Z.to_nat t) row 0.

Definition valid_target (C : nat) (t : Z) : bool :=
  ((t =? -100) || ((0 <=? t) && (t <? Z.of_nat C)))%Z.

(** [F.cross_entropy(input, target)] with class-index targets, its default
    mean reduction and its default [ignore_index] of -100; [C] is the
    number of classes. *)
Definition cross_entropy (C : nat) (input : list (list R)) (target : list Z)
  : result loss :=
  if negb (length input =? length target)%nat then
    Raise (ValueError "Expected input batch_size to match target batch_size")
  else if negb (forallb (valid_target C) target) then
    Raise IndexError
  else
    let kept := filter (fun p => p.2 <> (-100)%Z) (zip input target) in
    match kept with
    | [] => Ok NaN
    | _ => Ok (Finite (sum_list (map (fun p => nll p.1 p.2) kept) / INR (length kept)))
    end.

(** [t.view(-1, n)] of a contiguous tensor. *)
Definition view_rows {A} (n : nat) (flat : list A) : result (list (list A)) :=
  if (n =? 0)%nat then Raise (RuntimeError "cannot reshape into rows of size 0")
  else if (length flat mod n =? 0)%nat then Ok (chunks (length flat / n) n flat)
  else Raise (RuntimeError "shape is invalid for input size").

(** [t[mask]] for a boolean mask over dimension 0. *)
Definition bool_index {A} (t : list A) (mask : list bool) : result (list A) :=
  if (length t =? length mask)%nat
  then Ok (map fst (filter (fun p => p.2 = true) (zip t mask)))
  else Raise IndexError.

(** [GPTModel.masked_loss] *)
Definition masked_loss (self : GPTModel) (outputs : tensor3)
    (targets : list (list Z)) (masks : mask2) : result loss :=
  let! outputs_flat := view_rows (vocab_size self) (concat (concat outputs)) in
  let targets_flat := concat targets in
  let mask := map (fun m => (m =? 1)%Z) (concat masks) in
  let! outputs_masked := bool_index outputs_flat mask in
  let! targets_masked := bool_index targets_flat mask in
  cross_entropy (vocab_size self) outputs_masked targets_masked.

End Model.

(** ** The decoder: [top_p_filtering] and [generate_text] *)

Module Predict.
Import Torch.
Local Open Scope R_scope.

#[global] Instance Rlt_decision : RelDecision Rlt := Rlt_dec.
#[global] Instance Rle_decision : RelDecision Rle := Rle_dec.
#[global] Instance Req_decision : EqDecision R := Req_dec_T.

(** A logit after filtering: a number or the filter value minus infinity. *)
Inductive logit : Type :=
| Fin (r : R)
| NegInf.

(** [torch.sort(logits, descending=True)] returns the values in descending
    order together with the index each one comes from. Which of two equal
    values comes first is left open by the library (the sort is not
    stable), so the sort is a parameter of the model: any function on
    (index, value) pairs that returns a descending rearrangement of its
    input. *)
Definition descending_sort (sort : list R -> list (nat * R)) : Prop :=
  forall logits,
    sort logits ≡ₚ imap (fun i x => (i, x)) logits /\
    StronglySorted (fun a b => b.2 <= a.2) (sort logits).

(** One such sort, by insertion; it keeps equal values in the order of
    their indices. The examples use it on logits without ties. *)
Fixpoint insert_desc (p : nat * R) (l : list (nat * R)) : list (nat * R) :=
  match l with
  | [] => [p]
  | q :: l' =>
      if bool_decide (q.2 <= p.2) then p :: q :: l'
      else q :: insert_desc p l'
  end.

Definition stable_sort (logits : list R) : list (nat * R) :=
  foldr insert_desc [] (imap (fun i x => (i, x)) logits).

(** [torch.cumsum]. *)
Fixpoint cumsum_from (acc : R) (l : list R) : list R :=
  match l with
  | [] => []
  | x :: l' => (acc + x) :: cumsum_from (acc + x) l'
  end.

Definition cumsum (l : list R) : list R := cumsum_from 0 l.

(** The two assignments [r[1:] = r[:-1]] and [r[0] = 0]; the second one
    fails on a tensor without elements. *)
Definition shift_right (r : list bool) : result (list bool) :=
  match r with
  | [] => Raise IndexError
  | _ :: _ => Ok (false :: removelast r)
  end.

Section Nucleus.

Context (sort : list R -> list (nat * R)).

Definition top_p_filtering (logits : list R) (top_p : R) : result (list logit) :=
  let sorted := sort logits in
  let sorted_logits := map snd sorted in
  let sorted_indices := map fst sorted in
  let cumulative_probs := cumsum (softmax sorted_logits) in
  let sorted_indices_to_remove :=
    map (fun c => bool_decide (top_p < c)) cumulative_probs in
  let! sorted_indices_to_remove := shift_right sorted_indices_to_remove in
  let indices_to_remove :=
    map fst (filter (fun p => p.2 = true) (zip sorted_indices sorted_indices_to_remove)) in
  Ok (imap (fun i x => if bool_decide (i ∈ indices_to_remove) then NegInf else Fin x)
           logits).

(** The two intermediate tensors of [top_p_filtering] the properties speak
    about. *)
Definition sorted_indices (logits : list R) : list nat :=
  map fst (sort logits).

Definition cumulative_probs (logits : list R) : list R :=
  cumsum (softmax (map snd (sort logits))).

End Nucleus.

(** [F.softmax] on filtered logits: minus infinity has weight zero. *)
Definition weight_of (x : logit) : R :=
  match x with
  | Fin r => exp r
  | NegInf => 0
  end.

Definition softmax_filtered (l : list logit) : list R :=
  let e := map weight_of l in map (fun x => x / sum_list e) e.

(** The tokenizer collaborator. *)
Record Tokenizer := {
  encode : string -> result (list Z);
  decode : list Z -> result string;
  eot_token : Z
}.

Section Decoder.

(** The sort behind [torch.sort]. *)
Context (sort : list R -> list (nat * R)).

(** The random generator behind [Categorical(probabilities).sample()]. *)
Context {RNG : Type} (categorical_sample : RNG -> list R -> Z * RNG).

Context (tokenizer : Tokenizer) (model : Model.GPTModel) (s : store).
Context (temperature top_p : R).

(** The message of the [ValueError] that [Categorical(probabilities)]
    raises when it validates its argument, without the values formatted
    into it. *)
Definition invalid_probabilities : string :=
  "Expected parameter probs to satisfy the constraint Simplex()".

(** One iteration of the loop body: [None] stands for [break].

    The division by the temperature is a floating-point one and does not
    raise. At temperature zero every quotient is an infinity or not a
    number; [top_p_filtering] then filters nothing (it still fails on a
    vector without elements), the softmax is not a number anywhere, and
    the constructor of [Categorical] refuses it before anything is drawn.
    At any other temperature the quotients are the real ones. *)
Definition decode_step (input_ids : list Z) (g : RNG) : W (option (list Z) * RNG) :=
  do! outputs := Model.forward model s [input_ids] None in
  do! row :=
    lift (match outputs with
          | [] => Raise IndexError
          | o :: _ =>
              match last o with
              | Some r => Ok r
              | None => Raise IndexError
              end
          end) in
  if bool_decide (temperature = 0) then
    match row with
    | [] => lift (Raise IndexError)
    | _ :: _ => lift (Raise (ValueError invalid_probabilities))
    end
  else
    let logits := map (fun x => x / temperature) row in
    do! filtered_logits := lift (top_p_filtering sort logits top_p) in
    let probabilities := softmax_filtered filtered_logits in
    do! _ := tell (EvSample probabilities) in
    let '(next_token_id, g) := categorical_sample g probabilities in
    if (next_token_id =? eot_token tokenizer)%Z then
      do! _ := tell (EvPrint "End of sequence token reached.") in
      ret (None, g)
    else
      ret (Some (input_ids ++ [next_token_id]), g).

(** [for i in range(n)] around the loop body. *)
Fixpoint decode_loop (n : nat) (input_ids : list Z) (g : RNG) : W (list Z * RNG) :=
  match n with
  | O => ret (input_ids, g)
  | S n' =>
      do! r := decode_step input_ids g in
      match r with
      | (None, g') => ret (input_ids, g')
      | (Some input_ids', g') => decode_loop n' input_ids' g'
      end
  end.

(** [generate_text]; the result pairs the returned text with the token
    sequence that was decoded into it. *)
Definition generate_text (input_text : string) (g : RNG)
  : W (string * list Z * RNG) :=
  if bool_decide (Dataset.strip input_text = EmptyString) then
    lift (Raise (ValueError "Input text is empty"))
  else
    do! input_ids := lift (encode tokenizer input_text) in
    match input_ids with
    | [] => lift (Raise (ValueError "Input text could not be tokenized"))
    | _ =>
        do! _ := tell (EvPrint "Encoded input ids") in
        do! r := decode_loop (Model.sequence_length model) input_ids g in
        let '(input_ids, g) := r in
        do! generated_text := lift (decode tokenizer input_ids) in
        do! _ := tell (EvPrint "Generated text") in
        ret (generated_text, input_ids, g)
    end.

End Decoder.

End Predict.

(** ** A toy instance

    The instance of the specification's end-to-end example: a vocabulary of
    three tokens of which token 2 is the end-of-text token, a tokenizer that
    maps the letters A, B, C to 0, 1, 2, one layer whose sub-modules are
    identities, and a sampler that always draws token 2. *)

Module Toy.
Import Torch.
Local Open Scope R_scope.

Definition tokenizer : Predict.Tokenizer :=
  {| Predict.encode := fun text =>
       Ok (map (fun c => (Z.of_nat (nat_of_ascii c) - 65)%Z) (list_ascii_of_string text));
     Predict.decode := fun ids =>
       Ok (string_of_list_ascii (map (fun z => ascii_of_nat (Z.to_nat (z + 65))) ids));
     Predict.eot_token := 2 |}.

Definition block : Model.GPTTransformerBlock :=
  {| Model.block_params := [];
     Model.attention := fun _ q _ _ _ => Ok q;
     Model.dropout := fun x => x;
     Model.norm1 := fun _ x => x;
     Model.norm2 := fun _ x => x;
     Model.feed_forward := fun _ x => x |}.

Definition args : Model.init_args :=
  {| Model.a_embed_size := 2;
     Model.a_num_layers := 1;
     Model.a_heads := 1;
     Model.a_vocab_size := 3;
     Model.a_batch_size := 1;
     Model.a_sequence_length := 4;
     Model.a_max_epochs := 1;
     Model.a_dataset_length := 1;
     Model.a_embedding_init := [[0; 1]; [0; 0]; [0; 2]];
     Model.a_linear_init := [[0; 0]; [0; 0]; [0; 0]];
     Model.a_new_block := fun s => (block, s) |}.

(** A model of these hyperparameters with its store written out:
    parameter 1 is the embedding matrix, shared with the output projection,
    parameter 2 the positional table (a trained one: every row is (0, 1)). *)
Definition model : Model.GPTModel :=
  {| Model.embed_size := 2;
     Model.num_layers := 1;
     Model.heads := 1;
     Model.vocab_size := 3;
     Model.batch_size := 1;
     Model.sequence_length := 4;
     Model.max_epochs := 1;
     Model.dataset_length := 1;
     Model.embedding_weight := 1%positive;
     Model.pos_embbedings := 2%positive;
     Model.layers := [block];
     Model.output_layer := {| Model.weight := 1%positive; Model.bias := None |} |}.

Definition params : store :=
  <[2%positive := T3 [[[0; 1]; [0; 1]; [0; 1]; [0; 1]]]]>
    (<[1%positive := T2 [[0; 1]; [0; 0]; [0; 2]]]> ∅).

(** The mocked sampler: always token 2. *)
Definition always_eot (g : unit) (probabilities : list R) : Z * unit := (2%Z, g).


(** A batch of one sequence of two positions: the logits of the model
    (sequence-major), the targets and two masks. *)
Definition outputs : tensor3 := [[[0; 0; 0]]; [[0; 0; 0]]].
Definition targets : list (list Z) := [[2; 1]]%Z.
Definition mask_first : mask2 := [[1; 0]]%Z.
Definition mask_none : mask2 := [[0; 0]]%Z.


End Toy.

(** ** The data loader: [__len__] and [collate_fn] *)

Module Loader.
Import Dataset.

(** [TokenizedTextDataset.__len__]: [data], or else [line_offsets], has one
    entry per line of the file. *)
Definition len (ds : TokenizedTextDataset) : nat :=
  if in_memory ds then length (data ds) else length (line_offsets ds).

(** [pad_sequence(sequences, batch_first=True, padding_value=v)]: every
    sequence is extended at its end to the length of the longest one. *)
Definition pad_sequence (padding_value : Z) (sequences : list (list Z))
  : list (list Z) :=
  let max_len := foldr Nat.max 0 (map length sequences) in
  map (fun s => s ++ replicate (max_len - length s) padding_value) sequences.


End Loader.

(** ** The encoding utilities: chunking, splitting, vocabulary size *)

Module Encode.
Import Dataset.
Local Open Scope R_scope.

(** [range(0, n, step)] has [ceil(n / step)] elements. *)
Definition range_count (n step : nat) : nat :=
  (n / step + (if (n mod step =? 0)%nat then 0 else 1))%nat.

(** The chunking of [restructure_data]:
    [[all_text[i:i+context_window] for i in range(0, len(all_text), context_window)]];
    a step of zero is refused by [range]. *)
Definition restructure_chunks {A} (all_text : list A) (context_window : nat)
  : result (list (list A)) :=
  if (context_window =? 0)%nat then
    Raise (ValueError "range() arg 3 must not be zero")
  else
    Ok (map (fun k => take context_window (drop (k * context_window) all_text))
            (seq 0 (range_count (length all_text) context_window))).

(** [' '.join(words)] *)
Fixpoint join_spaces (words : list string) : string :=
  match words with
  | [] => EmptyString
  | [w] => w
  | w :: ws => String.append w (String " "%char (join_spaces ws))
  end.

(** [' '.join(line.strip().split())] *)
Definition normalise (line : string) : string :=
  join_spaces (split (strip line)).

(** [int(x)] of a float: truncation towards zero. *)
Definition int_of_float (x : R) : Z :=
  if bool_decide (0 <= x) then Int_part x else (- Int_part (- x))%Z.

(** A slice bound [i] on a list of length [n], as Python clamps it. *)
Definition slice_bound (n : nat) (i : Z) : nat :=
  if (i <? 0)%Z then Z.to_nat (Z.max 0 (Z.of_nat n + i))
  else Z.to_nat (Z.min i (Z.of_nat n)).

(** [l[:stop]] and [l[start:]] *)
Definition slice_to {A} (l : list A) (stop : Z) : list A :=
  take (slice_bound (length l) stop) l.

Definition slice_from {A} (l : list A) (start : Z) : list A :=
  drop (slice_bound (length l) start) l.

(** [format_and_split_data], from the lines read to the two lists
    [train_tokens] and [val_tokens] that it writes out, joined by newlines
    and followed by one. [float_mul n x] stands for the product
    [len(tokens) * val_ratio] as Python computes it, the floating-point
    product of an integer and a float: it is the exact product rounded,
    and the model leaves the rounding open. *)
Definition format_and_split_data (float_mul : nat -> R -> R)
    (lines : list string) (val_ratio : R) : list string * list string :=
  let tokens := map normalise lines in
  let val_size := int_of_float (float_mul (length tokens) val_ratio) in
  let train_tokens := slice_to tokens (- val_size) in
  let val_tokens := slice_from tokens (- val_size) in
  (train_tokens, val_tokens).

(** [max(tokens)] *)
Definition py_max (tokens : list Z) : result Z :=
  match tokens with
  | [] => Raise (ValueError "max() arg is an empty sequence")
  | t :: tokens' => Ok (foldl Z.max t tokens')
  end.

(** The loop of [find_vocab_size] over the lines of the file. *)
Fixpoint find_vocab_loop (max_token : Z) (lines : list string) : result Z :=
  match lines with
  | [] => Ok max_token
  | line :: rest =>
      let! tokens := parse_line (strip line) in
      let! m := py_max tokens in
      find_vocab_loop (Z.max max_token m) rest
  end.

Definition find_vocab_size (lines : list string) : result Z :=
  let! max_token := find_vocab_loop 0 lines in
  Ok (max_token + 1)%Z.

End Encode.

(** ** [GPTModel.configure_optimizers] *)

Module Optim.
Import Model Scheduler.
Local Open Scope R_scope.

(** The scheduler at step [t]: [step()] only moves [last_epoch]. *)
Definition at_step (self : WarmupCosineLR) (t : Z) : WarmupCosineLR :=
  {| warmup_steps := warmup_steps self;
     total_steps := total_steps self;
     min_lr := min_lr self;
     base_lrs := base_lrs self;
     last_epoch := t |}.

(** [configure_optimizers]: one parameter group at rate 0.001; the
    constructor of the scheduler takes its initial step, which evaluates
    [get_lr] at step 0. *)
Definition configure_optimizers (self : GPTModel) : result WarmupCosineLR :=
  if (batch_size self =? 0)%nat then Raise ZeroDivisionError
  else
    let num_batches_per_epoch := (dataset_length self / batch_size self)%nat in
    let num_batches_per_epoch :=
      if negb (dataset_length self mod batch_size self =? 0)%nat
      then (num_batches_per_epoch + 1)%nat
      else num_batches_per_epoch in
    let total_steps := Z.of_nat (max_epochs self * num_batches_per_epoch) in
    let warmup_steps := Encode.int_of_float (0.1 * IZR total_steps) in
    let scheduler :=
      {| warmup_steps := warmup_steps;
         total_steps := total_steps;
         min_lr := 0.000001;
         base_lrs := [0.001];
         last_epoch := 0 |} in
    let! _ := get_lr scheduler in
    Ok scheduler.

End Optim.

(** ** The choice of the model version in [predict_model] *)

Module Versions.
Import Dataset.

(** [s.split(sep)] for a one-character separator: every occurrence
    splits, empty pieces are kept. *)
Fixpoint split_on_from (sep : ascii) (cur : list ascii) (s : list ascii)
  : list string :=
  match s with
  | [] => [string_of_list_ascii cur]
  | c :: s' =>
      if Ascii.eqb c sep then string_of_list_ascii cur :: split_on_from sep [] s'
      else split_on_from sep (cur ++ [c]) s'
  end.

Definition split_on (sep : ascii) (s : string) : list string :=
  split_on_from sep [] (list_ascii_of_string s).

(** [v.split('_')[1]] *)
Definition version_part (v : string) : result string :=
  match split_on "_"%char v !! 1%nat with
  | Some part => Ok part
  | None => Raise IndexError
  end.

(** The sort key [int(v.split('_')[1])], paired with its entry. *)
Definition keyed (v : string) : result (Z * string) :=
  let! part := version_part v in
  let! k := py_int part in
  Ok (k, v).

(** [versions.sort(key=..., reverse=True)]: descending keys, entries of
    equal key in their original order. *)
Fixpoint insert_by_key (p : Z * string) (l : list (Z * string))
  : list (Z * string) :=
  match l with
  | [] => [p]
  | q :: l' =>
      if (q.1 <=? p.1)%Z then p :: q :: l' else q :: insert_by_key p l'
  end.

Definition sort_by_key (l : list (Z * string)) : list (Z * string) :=
  foldr insert_by_key [] l.

(** What the selection ends in: a version, the [Exception] raised when no
    version directory exists, or an error raised while sorting. *)
Inductive outcome : Type :=
| Selected (model_version : string)
| NoVersions
| Failed (e : exn).

(** The first part of [predict_model]; [listing] is what
    [os.listdir('tb_logs/gpt')] returns. *)
Definition select_version (listing : list string) (model_version : option string)
  : outcome :=
  match model_version with
  | None =>
      let versions := filter (fun d => String.prefix "version_" d = true) listing in
      match versions with
      | [] => NoVersions
      | _ =>
          match rmap keyed versions with
          | Raise e => Failed e
          | Ok keys =>
              match sort_by_key keys with
              | (_, v) :: _ =>
                  match version_part v with
                  | Ok part => Selected part
                  | Raise e => Failed e
                  end
              | [] => Failed IndexError
              end
          end
      end
  | Some _ => Selected "12"
  end.

End Versions.

(** ** Further instances *)

Module Examples.

(** The toy model on an empty training file. *)
Definition empty_corpus_model : Model.GPTModel :=
  {| Model.embed_size := 2;
     Model.num_layers := 1;
     Model.heads := 1;
     Model.vocab_size := 3;
     Model.batch_size := 1;
     Model.sequence_length := 4;
     Model.max_epochs := 1;
     Model.dataset_length := 0;
     Model.embedding_weight := 1%positive;
     Model.pos_embbedings := 2%positive;
     Model.layers := [Toy.block];
     Model.output_layer := {| Model.weight := 1%positive; Model.bias := None |} |}.

End Examples.

(** * Properties *)

(** ** Generic facts *)

Lemma rmap_ok {A B} (f : A -> result B) (g : A -> B) (l : list A) :
  Forall (fun a => f a = Ok (g a)) l -> rmap f l = Ok (map g l).
Proof.
  induction 1 as [|a l Ha _ IH]; simpl; [done|].
  by rewrite Ha, IH.
Qed.

Lemma removelast_take {A} (l : list A) : removelast l = take (length l - 1) l.
Proof.
  induction l as [|a [|b l] IH]; [done..|].
  change (removelast (a :: b :: l)) with (a :: removelast (b :: l)).
  rewrite IH. simpl. by rewrite Nat.sub_0_r.
Qed.

Lemma removelast_map {A B} (f : A -> B) (l : list A) :
  removelast (map f l) = map f (removelast l).
Proof.
  induction l as [|a [|b l] IH]; [done..|].
  change (removelast (map f (a :: b :: l)))
    with (f a :: removelast (map f (b :: l))).
  by rewrite IH.
Qed.

(** ** The dataset *)

Section DatasetFacts.
Import Dataset.

Lemma pad_or_truncate_length ds tokens :
  length (pad_or_truncate ds tokens) = sequence_length ds.
Proof.
  unfold pad_or_truncate.
  destruct (Nat.ltb_spec (length tokens) (sequence_length ds)).
  - rewrite length_app, length_replicate. lia.
  - rewrite length_take. lia.
Qed.

Lemma long_tensor_ok l :
  Forall (fun z => is_int64 z = true) l -> long_tensor l = Ok l.
Proof.
  intros H. unfold long_tensor.
  by rewrite (proj2 (forallb_forall _ _)); [|intros x Hx%list_elem_of_In; revert x Hx; apply Forall_forall].
Qed.

(** C8. An item is built from the parsed line by padding it on the right
    with the padding token when it is shorter than [S] and cutting it to
    [S] otherwise; the input is then [tokens[0:S-1]], the target
    [tokens[1:S]], and the mask marks the non-padding tokens of the input.
    For the line "1 2 3 4 5" and [S = 4] the input is [1,2,3] and the
    target [2,3,4]. *)
Theorem getitem_split_contract :
  (forall (ds : TokenizedTextDataset) (idx : nat) (line : string) (raw : list Z),
      read_line ds idx = Ok line ->
      parse_line line = Ok raw ->
      let S := sequence_length ds in
      let tokens :=
        if decide (length raw < S)
        then raw ++ replicate (S - length raw) (padding_token ds)
        else take S raw in
      Forall (fun z => is_int64 z = true) tokens ->
      length tokens = S /\
      getitem ds idx =
        Ok (take (S - 1) tokens,
            drop 1 (take S tokens),
            map (fun t => if decide (t = padding_token ds) then 0%Z else 1%Z)
                (take (S - 1) tokens)))
  /\ getitem example_dataset 0 = Ok ([1; 2; 3], [2; 3; 4], [1; 1; 1])%Z.
Proof.
  split; [|vm_compute; reflexivity].
  intros ds idx line raw Hline Hparse S tokens Hfit.
  assert (Htok : tokens = pad_or_truncate ds raw).
  { unfold tokens, pad_or_truncate, S.
    destruct (decide _) as [Hlt|Hge], (Nat.ltb_spec (length raw) (sequence_length ds));
      done || lia. }
  assert (Hlen : length tokens = S) by (rewrite Htok; apply pad_or_truncate_length).
  split; [done|].
  unfold getitem. rewrite Hline. cbn [rbind]. rewrite Hparse. cbn [rbind].
  rewrite <- Htok.
  assert (Hin : removelast tokens = take (S - 1) tokens)
    by (by rewrite removelast_take, Hlen).
  rewrite Hin.
  rewrite (long_tensor_ok (take (S - 1) tokens)) by (by apply Forall_take).
  cbn [rbind].
  assert (Htl : tail tokens = drop 1 (take S tokens)).
  { rewrite take_ge by lia. by destruct tokens. }
  rewrite Htl, long_tensor_ok; cbn [rbind].
  - do 2 f_equal. unfold attention_mask_of. rewrite removelast_map, Hin.
    apply map_ext. intros t.
    destruct (decide (t = padding_token ds)) as [->|Hne].
    + by rewrite bool_decide_eq_false_2 by (intros H; by apply H).
    + by rewrite bool_decide_eq_true_2.
  - rewrite <- Htl. destruct tokens; [done|]. by inversion Hfit.
Qed.

(** The contract applied to the item 0 of the example dataset. *)
Lemma getitem_split_contract_witness :
  getitem example_dataset 0 =
    Ok (take 3 [1; 2; 3; 4], drop 1 (take 4 [1; 2; 3; 4]),
        map (fun t => if decide (t = 0) then 0 else 1) (take 3 [1; 2; 3; 4]))%Z.
Proof.
  refine (proj2 (proj1 getitem_split_contract example_dataset 0
                   "1 2 3 4 5"%string [1; 2; 3; 4; 5]%Z _ _ _)).
  - vm_compute; reflexivity.
  - vm_compute; reflexivity.
  - repeat constructor.
Defined.

End DatasetFacts.

(** ** The positional table *)

Section UtilFacts.
Import Util.
Local Open Scope R_scope.

Lemma write_even_length (src row : list R) :
  length (write_even row src) = length row.
Proof.
  revert row. induction src as [|s src IH]; intros [|x [|y row]]; simpl; try done.
  by rewrite IH.
Qed.

Lemma write_even_lookup_odd (src row : list R) (i : nat) :
  write_even row src !! (2 * i + 1)%nat = row !! (2 * i + 1)%nat.
Proof.
  revert row i. induction src as [|s src IH]; intros row i; [by destruct row|].
  destruct row as [|x [|y row]]; [done| |].
  - by replace (2 * i + 1)%nat with (S (2 * i)) by lia.
  - destruct i as [|i]; [done|].
    replace (2 * S i + 1)%nat with (S (S (2 * i + 1))) by lia.
    simpl. apply IH.
Qed.

Lemma write_even_lookup_even (src row : list R) (i : nat) :
  (2 * i < length row)%nat -> (i < length src)%nat ->
  write_even row src !! (2 * i)%nat = src !! i.
Proof.
  revert row i. induction src as [|s src IH]; intros row i Hrow Hsrc; simpl in Hsrc; [lia|].
  destruct row as [|x [|y row]]; simpl in Hrow; [lia| |].
  - destruct i as [|i]; [done|lia].
  - destruct i as [|i]; [done|].
    replace (2 * S i)%nat with (S (S (2 * i))) by lia.
    simpl. apply IH; lia.
Qed.

Lemma write_odd_length (src row : list R) :
  length (write_odd row src) = length row.
Proof. destruct row; simpl; [done|]. by rewrite write_even_length. Qed.

Lemma write_odd_lookup_even (src row : list R) (i : nat) :
  write_odd row src !! (2 * i)%nat = row !! (2 * i)%nat.
Proof.
  destruct row as [|x row]; [done|]. destruct i as [|i]; [done|].
  replace (2 * S i)%nat with (S (2 * i + 1)) by lia.
  simpl. apply write_even_lookup_odd.
Qed.

Lemma write_odd_lookup_odd (src row : list R) (i : nat) :
  (2 * i + 1 < length row)%nat -> (i < length src)%nat ->
  write_odd row src !! (2 * i + 1)%nat = src !! i.
Proof.
  intros Hrow Hsrc. destruct row as [|x row]; simpl in Hrow; [lia|].
  replace (2 * i + 1)%nat with (S (2 * i)) by lia.
  simpl. apply write_even_lookup_even; lia.
Qed.

Lemma div2_double_succ (n : nat) : Nat.div2 (2 * n + 1) = n.
Proof.
  replace (2 * n + 1)%nat with (S (2 * n)) by lia. apply Nat.div2_succ_double.
Qed.

(** The angle the code computes is the one of the closed formula. *)
Lemma angle_formula (pos i E : nat) :
  (0 < E)%nat ->
  INR pos * exp (INR (2 * i) * (- ln 10000 / INR E)) =
  INR pos / Rpower 10000 (INR (2 * i) / INR E).
Proof.
  intros HE. unfold Rpower, Rdiv at 2. rewrite <- exp_Ropp. do 2 f_equal.
  assert (INR E <> 0) by (apply not_0_INR; lia). by field.
Qed.

(** The table for an even, non-zero embedding size. *)
Lemma positional_table_even (E L : nat) :
  Nat.Even E -> (0 < E)%nat ->
  exists pe : list (list R),
    sinusoidal_positional_encoding E L = Ok [pe] /\
    length pe = L /\
    (forall pos row, pe !! pos = Some row -> length row = E) /\
    (forall pos i, (pos < L)%nat -> (2 * i < E)%nat ->
       exists row, pe !! pos = Some row /\
         row !! (2 * i)%nat =
           Some (sin (INR pos / Rpower 10000 (INR (2 * i) / INR E))) /\
         row !! (2 * i + 1)%nat =
           Some (cos (INR pos / Rpower 10000 (INR (2 * i) / INR E)))).
Proof.
  intros [n ->] Hpos.
  unfold sinusoidal_positional_encoding.
  destruct (Nat.eqb_spec (2 * n) 0) as [|_]; [lia|]. cbn [rbind].
  set (factor := - ln 10000 / INR (2 * n)).
  set (div_term := map (fun e => exp (e * factor)) (arange_even (2 * n))).
  assert (Hm : length div_term = n).
  { unfold div_term, arange_even.
    by rewrite !length_map, length_seq, div2_double_succ. }
  set (angles := map (fun pos => map (fun d => pos * d) div_term) (map INR (seq 0 L))).
  unfold assign_columns, expand_columns, strided_columns. rewrite Hm.
  rewrite Nat.sub_0_r, div2_double_succ, Nat.eqb_refl. cbn [rbind].
  replace (2 * n + 1 - 1)%nat with (2 * n)%nat by lia.
  rewrite Nat.div2_double, Nat.eqb_refl. cbn [rbind Nat.eqb].
  eexists. split; [reflexivity|].
  assert (Hangles : forall pos, (pos < L)%nat ->
            angles !! pos = Some (map (fun d => INR pos * d) div_term)).
  { intros pos Hlt. unfold angles. rewrite !list_lookup_fmap, lookup_seq_lt by done.
    done. }
  assert (Hlen : length angles = L)
    by (unfold angles; by rewrite !length_map, length_seq).
  assert (Hrow : forall pos, (pos < L)%nat ->
    zip_with write_odd
      (zip_with write_even (replicate L (replicate (2 * n) 0)) (map (map sin) angles))
      (map (map cos) angles) !! pos =
    Some (write_odd
            (write_even (replicate (2 * n) 0)
               (map sin (map (fun d => INR pos * d) div_term)))
            (map cos (map (fun d => INR pos * d) div_term)))).
  { intros pos Hlt. rewrite !lookup_zip_with, lookup_replicate_2 by done.
    rewrite !list_lookup_fmap, Hangles by done. done. }
  split; [|split].
  - rewrite !length_zip_with, length_replicate, !length_map, Hlen. lia.
  - intros pos row Hlook.
    assert (Hlt : (pos < L)%nat).
    { apply lookup_lt_Some in Hlook.
      rewrite !length_zip_with, length_replicate, !length_map, Hlen in Hlook. lia. }
    rewrite Hrow in Hlook by done. injection Hlook as <-.
    by rewrite write_odd_length, write_even_length, length_replicate.
  - intros pos i Hlt Hi. eexists. split; [by apply Hrow|].
    assert (Hd : div_term !! i = Some (exp (INR (2 * i) * factor))).
    { unfold div_term, arange_even.
      rewrite !list_lookup_fmap, lookup_seq_lt; [done|].
      rewrite div2_double_succ. lia. }
    split.
    + rewrite write_odd_lookup_even, write_even_lookup_even.
      * rewrite !list_lookup_fmap, Hd.
        by rewrite <- (angle_formula pos i (2 * n)) by done.
      * rewrite length_replicate. lia.
      * rewrite !length_map, Hm. lia.
    + rewrite write_odd_lookup_odd.
      * rewrite !list_lookup_fmap, Hd.
        by rewrite <- (angle_formula pos i (2 * n)) by done.
      * rewrite write_even_length, length_replicate. lia.
      * rewrite !length_map, Hm. lia.
Qed.

(** The table for an embedding size of one: the slice [1::2] is empty,
    and the single cosine column is expanded to no column at all. *)
Lemma positional_table_one (L : nat) :
  sinusoidal_positional_encoding 1 L =
    Ok [map (fun pos => [sin (INR pos / Rpower 10000 (INR (2 * 0) / INR 1))])
            (seq 0 L)].
Proof.
  unfold sinusoidal_positional_encoding. cbn [Nat.eqb rbind].
  unfold assign_columns, expand_columns, strided_columns, arange_even.
  cbn [Nat.add Nat.sub Nat.div2 seq map length Nat.eqb rbind].
  do 2 f_equal. apply list_eq. intros pos.
  rewrite !lookup_zip_with, !list_lookup_fmap.
  destruct (decide (pos < L)%nat) as [Hlt|Hge].
  - rewrite lookup_replicate_2, lookup_seq_lt by done. cbn.
    do 3 f_equal. exact (angle_formula pos 0 1 ltac:(lia)).
  - rewrite (proj1 (lookup_replicate_None _ _ _)) by lia. cbn.
    by rewrite (proj2 (lookup_ge_None _ _)) by (rewrite length_seq; lia).
Qed.

(** C9, as amended. For an embedding size [E] that is one or an even
    number other than zero, and any [L], the encoder returns a table of
    shape (1, L, E) with [P[0, pos, 2i] = sin (pos / 10000^(2i/E))] and
    [P[0, pos, 2i+1] = cos (pos / 10000^(2i/E))] at every column there is;
    being a function of [E] and [L] alone, it does not depend on any
    state. *)
Theorem sinusoidal_positional_encoding_table (E L : nat) :
  E = 1%nat \/ (Nat.Even E /\ (0 < E)%nat) ->
  exists pe : list (list R),
    sinusoidal_positional_encoding E L = Ok [pe] /\
    length pe = L /\
    (forall pos, (pos < L)%nat ->
       exists row, pe !! pos = Some row /\ length row = E /\
         forall i,
           ((2 * i < E)%nat ->
            row !! (2 * i)%nat =
              Some (sin (INR pos / Rpower 10000 (INR (2 * i) / INR E)))) /\
           ((2 * i + 1 < E)%nat ->
            row !! (2 * i + 1)%nat =
              Some (cos (INR pos / Rpower 10000 (INR (2 * i) / INR E))))).
Proof.
  intros [->|[Heven Hpos]].
  - eexists. split; [apply positional_table_one|].
    split; [by rewrite length_map, length_seq|].
    intros pos Hlt. eexists.
    split; [by rewrite list_lookup_fmap, lookup_seq_lt by done|].
    split; [done|]. intros i. split; intros Hi; [|lia].
    by assert (i = 0%nat) as -> by lia.
  - destruct (positional_table_even E L Heven Hpos) as (pe & Hrun & Hlen & Hrows & Hcols).
    exists pe. split; [done|]. split; [done|]. intros pos Hlt.
    destruct (Hcols pos 0%nat Hlt ltac:(lia)) as (row & Hrow & _).
    exists row. split; [done|]. split; [by eapply Hrows|].
    intros i.
    assert (Hi : (2 * i < E)%nat -> (2 * i + 1 < E)%nat).
    { destruct Heven as [n ->]. lia. }
    split; intros Hlt'.
    + destruct (Hcols pos i Hlt Hlt') as (row' & Hrow' & Hsin & _). congruence.
    + destruct (Hcols pos i Hlt ltac:(lia)) as (row' & Hrow' & _ & Hcos). congruence.
Qed.

(** The amended contract at [E = 4], [L = 3]: position 2 of the table. *)
Lemma sinusoidal_positional_encoding_table_witness :
  exists (pe : list (list R)) (row : list R),
    sinusoidal_positional_encoding 4 3 = Ok [pe] /\ length pe = 3%nat /\
    pe !! 2%nat = Some row /\ length row = 4%nat /\
    row !! 2%nat = Some (sin (INR 2 / Rpower 10000 (INR 2 / INR 4))) /\
    row !! 3%nat = Some (cos (INR 2 / Rpower 10000 (INR 2 / INR 4))).
Proof.
  destruct (sinusoidal_positional_encoding_table 4 3)
    as (pe & Hrun & Hlen & Hcols).
  - right. split; [by exists 2%nat|lia].
  - destruct (Hcols 2%nat ltac:(lia)) as (row & Hrow & Hwidth & Hentries).
    exists pe, row. split; [exact Hrun|]. split; [exact Hlen|].
    split; [exact Hrow|]. split; [exact Hwidth|].
    split; [exact (proj1 (Hentries 1%nat) ltac:(lia))|
            exact (proj2 (Hentries 1%nat) ltac:(lia))].
Defined.

(** C9 as stated fails for odd sizes: with [E = 3] the cosine block has two
    columns while the slice [1::2] has one, and the assignment raises. *)
Lemma sinusoidal_positional_encoding_odd_raises :
  sinusoidal_positional_encoding 3 1 =
    Raise (RuntimeError "The expanded size of the tensor must match the existing size").
Proof. reflexivity. Qed.

End UtilFacts.

(** ** The learning-rate schedule *)

Section SchedulerFacts.
Import Scheduler.
Local Open Scope R_scope.

Lemma get_lr_warmup_phase (self : WarmupCosineLR) :
  (last_epoch self < warmup_steps self)%Z -> warmup_steps self <> 0%Z ->
  get_lr self =
    Ok (map (fun base_lr =>
               base_lr * (IZR (last_epoch self) / IZR (warmup_steps self)) + min_lr self)
            (base_lrs self)).
Proof.
  intros Hlt Hne. unfold get_lr, true_div.
  destruct (Z.ltb_spec (last_epoch self) (warmup_steps self)); [|lia].
  by destruct (Z.eqb_spec (warmup_steps self) 0).
Qed.

Lemma get_lr_cosine_phase (self : WarmupCosineLR) :
  (warmup_steps self <= last_epoch self)%Z -> total_steps self <> warmup_steps self ->
  get_lr self =
    Ok (map (fun base_lr =>
               base_lr *
               (0.5 * (1 + cos (IZR (last_epoch self - warmup_steps self) /
                                IZR (total_steps self - warmup_steps self)))) +
               min_lr self)
            (base_lrs self)).
Proof.
  intros Hle Hne. unfold get_lr, true_div.
  destruct (Z.ltb_spec (last_epoch self) (warmup_steps self)); [lia|].
  destruct (Z.eqb_spec (total_steps self - warmup_steps self) 0); [lia|done].
Qed.

(** The two ends of the warmup ramp are as the specification has them. *)
Lemma get_lr_at_zero (self : WarmupCosineLR) :
  last_epoch self = 0%Z -> (0 < warmup_steps self)%Z ->
  get_lr self = Ok (map (fun _ => min_lr self) (base_lrs self)).
Proof.
  intros H0 Hw. rewrite get_lr_warmup_phase by lia. f_equal.
  apply map_ext. intros b. rewrite H0. lra.
Qed.

Lemma get_lr_at_warmup_steps (self : WarmupCosineLR) :
  last_epoch self = warmup_steps self -> total_steps self <> warmup_steps self ->
  get_lr self = Ok (map (fun base_lr => base_lr + min_lr self) (base_lrs self)).
Proof.
  intros Ht Hne. rewrite get_lr_cosine_phase by (done || lia). f_equal.
  apply map_ext. intros b. rewrite Ht, Z.sub_diag.
  replace (0 / IZR (total_steps self - warmup_steps self)) with 0 by lra.
  rewrite cos_0. lra.
Qed.

Lemma cos_1_pos : 0 < cos 1.
Proof. apply cos_gt_0; generalize PI2_1, PI_RGT_0; lra. Qed.

(** C2. At the last step of [schedule_at_end] the code evaluates the cosine
    at the progress 1 and not at pi: the rate it returns is
    [0.001 * (0.5 * (1 + cos 1)) + 0.000001], above the minimum rate that
    the schedule of the specification gives there. *)
Theorem get_lr_at_total_steps :
  exists lr : R,
    get_lr schedule_at_end = Ok [lr] /\
    lr = 0.001 * (0.5 * (1 + cos 1)) + 0.000001 /\
    min_lr schedule_at_end < lr /\
    spec_rate 0.001 0.000001 1 2 2 = min_lr schedule_at_end.
Proof.
  eexists. split; [|split; [|split]].
  - rewrite get_lr_cosine_phase by (simpl; lia). reflexivity.
  - simpl. replace ((2 - 1)%Z) with 1%Z by lia.
    by replace (1 / 1) with 1 by lra.
  - simpl. replace ((2 - 1)%Z) with 1%Z by lia.
    replace (1 / 1) with 1 by lra. generalize cos_1_pos. lra.
  - unfold spec_rate, spec_scale. simpl. replace ((2 - 1)%Z) with 1%Z by lia.
    replace (PI * (1 / 1)) with PI by lra. rewrite cos_PI. lra.
Qed.

End SchedulerFacts.

(** ** The event log *)

Section LogFacts.
Import Torch.

Lemma emits_ret {A} (P : event -> Prop) (a : A) : emits P (ret a).
Proof. intros log. exists []. by rewrite app_nil_r. Qed.

Lemma emits_lift {A} (P : event -> Prop) (r : result A) : emits P (lift r).
Proof. intros log. exists []. by rewrite app_nil_r. Qed.

Lemma emits_tell (P : event -> Prop) (e : event) : P e -> emits P (tell e).
Proof. intros He log. exists [e]. split; [done|]. by constructor. Qed.

(** The continuation only has to behave on the values [c] can return. *)
Lemma emits_bind_dep {A B} (P : event -> Prop) (c : W A) (k : A -> W B) :
  emits P c ->
  (forall a, (exists log, (c log).1 = Ok a) -> emits P (k a)) ->
  emits P (bind c k).
Proof.
  intros Hc Hk log. unfold bind.
  destruct (Hc log) as (new1 & E1 & F1).
  destruct (c log) as [[a|e] log1] eqn:Hrun; simpl in E1; subst log1.
  - destruct (Hk a) with (log := log ++ new1) as (new2 & E2 & F2).
    { exists log. by rewrite Hrun. }
    exists (new1 ++ new2). rewrite E2, app_assoc. split; [done|].
    by apply Forall_app.
  - by exists new1.
Qed.

Lemma emits_bind {A B} (P : event -> Prop) (c : W A) (k : A -> W B) :
  emits P c -> (forall a, emits P (k a)) -> emits P (bind c k).
Proof. intros Hc Hk. apply emits_bind_dep; [done|]. intros a _. apply Hk. Qed.

Lemma emits_foldW {A B} (P : event -> Prop) (f : A -> B -> W A) (l : list B) (a : A) :
  (forall a b, emits P (f a b)) -> emits P (foldW f l a).
Proof.
  intros Hf. revert a. induction l as [|b l IH]; intros a; simpl.
  - apply emits_ret.
  - apply emits_bind; [apply Hf|apply IH].
Qed.

Lemma emits_weaken {A} (P Q : event -> Prop) (c : W A) :
  (forall e, P e -> Q e) -> emits P c -> emits Q c.
Proof.
  intros HPQ Hc log. destruct (Hc log) as (new & E & F).
  exists new. split; [done|]. by eapply Forall_impl.
Qed.

End LogFacts.

(** ** Mask expansion *)

Section MaskFacts.
Import Torch Model.

Lemma concat_replicate_singleton {A} (n : nat) (x : A) :
  concat (replicate n [x]) = replicate n x.
Proof. induction n as [|n IH]; simpl; [done|]. by rewrite IH. Qed.

Lemma chunks_length {A} (k n : nat) (l : list A) : length (chunks k n l) = k.
Proof. revert l. induction k as [|k IH]; intros l; simpl; [done|]. by rewrite IH. Qed.

Lemma chunks_concat {A} (n : nat) (rows : list (list A)) :
  Forall (fun row => length row = n) rows ->
  chunks (length rows) n (concat rows) = rows.
Proof.
  induction 1 as [|row rows Hrow _ IH]; simpl; [done|].
  rewrite take_app_length' by done. rewrite drop_app_length' by done.
  by rewrite IH.
Qed.

Lemma chunks_singletons {A} (k : nat) (l : list A) :
  length l = k -> chunks k 1 l = map (fun x => [x]) l.
Proof.
  revert l. induction k as [|k IH]; intros [|x l] Hl; simpl in *; try done.
  rewrite take_0, drop_0. rewrite IH by lia. done.
Qed.

Lemma repeat1_singletons {A} (n : nat) (rows : list (list A)) :
  repeat1 n (map (fun row => [row]) rows) = map (replicate n) rows.
Proof.
  unfold repeat1. rewrite map_map. apply map_ext. intros row.
  apply concat_replicate_singleton.
Qed.

Lemma concat_length_uniform {A} (n : nat) (rows : list (list A)) :
  Forall (fun row => length row = n) rows ->
  length (concat rows) = (length rows * n)%nat.
Proof. induction 1 as [|row rows Hrow _ IH]; simpl; [done|]. rewrite length_app. lia. Qed.

(** The expansion in closed form: for each row of the mask, one plane per
    head, each plane being the row repeated for every query position. *)
Lemma create_mask_closed_form {A} (H S : nat) (mask : list (list A)) :
  Forall (fun row => length row = S) mask ->
  create_mask H mask S =
    Ok (flat_map (fun row => replicate H (replicate S row)) mask).
Proof.
  intros Hrect. unfold create_mask, unsqueeze1.
  rewrite repeat1_singletons.
  set (rows := concat (map (replicate H) mask)).
  assert (Hrows : Forall (fun row => length row = S) rows).
  { unfold rows. apply Forall_concat, Forall_fmap.
    eapply Forall_impl; [exact Hrect|].
    intros row Hrow. simpl. by apply Forall_replicate. }
  assert (Hlen : length rows = (length mask * H)%nat).
  { unfold rows. rewrite (concat_length_uniform H).
    - by rewrite length_map.
    - apply Forall_fmap, Forall_true. intros row. simpl. apply length_replicate. }
  unfold view3. rewrite (concat_length_uniform S) by done.
  rewrite Hlen, Nat.mul_1_r, Nat.eqb_refl. cbn [rbind].
  rewrite <- Hlen, chunks_concat by done.
  rewrite chunks_singletons by done.
  rewrite repeat1_singletons. f_equal.
  unfold rows. clear. induction mask as [|row mask IH]; simpl; [done|].
  rewrite map_app, IH. f_equal.
  apply (fmap_replicate (replicate S)).
Qed.

(** Whatever the mask, every plane of an expansion is one row repeated for
    every query position. *)
Lemma create_mask_planes {A} (H cur : nat) (mask : list (list A)) m3 :
  create_mask H mask cur = Ok m3 ->
  Forall (fun plane => exists row, plane = replicate cur row) m3.
Proof.
  unfold create_mask, view3.
  destruct (_ =? _)%nat; [|done]. cbn [rbind].
  intros [= <-]. rewrite chunks_singletons.
  - rewrite repeat1_singletons. apply Forall_fmap, Forall_true.
    intros row. by exists row.
  - by rewrite chunks_length, Nat.mul_1_r.
Qed.

End MaskFacts.

(** ** The forward pass *)

Section ForwardFacts.
Import Torch Model.

Lemma block_forward_emits (P : event -> Prop) layer s x mask :
  P (EvAttention mask) -> emits P (block_forward layer s x mask).
Proof.
  intros HP. unfold block_forward.
  apply emits_bind; [by apply emits_tell|]. intros _.
  apply emits_bind; [apply emits_lift|]. intros attention_output.
  apply emits_bind; [apply emits_lift|]. intros y.
  apply emits_bind; [apply emits_lift|]. intros z.
  apply emits_ret.
Qed.

(** The events of one call of the model: the call itself, the line printed
    when there is no mask, and one attention call per layer, each with the
    expanded mask or with none. *)
Lemma forward_emits (P : event -> Prop) self s x mask :
  P (EvForward x mask) ->
  (mask = None -> P (EvPrint "Mask is None") /\ P (EvAttention None)) ->
  (forall m cur m3, mask = Some m -> create_mask (heads self) m cur = Ok m3 ->
     P (EvAttention (Some m3))) ->
  emits P (forward self s x mask).
Proof.
  intros Hcall Hnone Hsome. unfold forward.
  apply emits_bind; [by apply emits_tell|]. intros _.
  apply emits_bind; [apply emits_lift|]. intros w.
  apply emits_bind; [apply emits_lift|]. intros x'.
  apply emits_bind; [apply emits_lift|]. intros pos.
  apply emits_bind; [apply emits_lift|]. intros x''.
  apply emits_bind_dep.
  { destruct mask as [m|].
    - apply emits_bind; [apply emits_lift|]. intros m'. apply emits_ret.
    - apply emits_bind; [apply emits_tell; by apply Hnone|]. intros _. apply emits_ret. }
  intros mask' [log Hmask'].
  assert (HP : P (EvAttention mask')).
  { destruct mask as [m|].
    - unfold bind, lift, ret in Hmask'.
      destruct (create_mask (heads self) m (length (hd [] x'))) as [m3|e] eqn:Hm3;
        simpl in Hmask'; [|done].
      injection Hmask' as <-. by eapply Hsome.
    - unfold bind, tell, ret in Hmask'. simpl in Hmask'.
      injection Hmask' as <-. by apply Hnone. }
  apply emits_bind.
  { apply emits_foldW. intros a layer. by apply block_forward_emits. }
  intros x3.
  apply emits_bind; [apply emits_lift|]. intros w'.
  apply emits_bind.
  { destruct (bias (output_layer self)) as [l|]; [|apply emits_ret].
    destruct (s !! l) as [[ | | ]|]; apply emits_ret || apply emits_lift. }
  intros b. apply emits_ret.
Qed.

Lemma flat_map_replicate_lookup {A B} (f : A -> B) (H : nat) (l : list A) b h a :
  l !! b = Some a -> h < H ->
  flat_map (fun x => replicate H (f x)) l !! (b * H + h) = Some (f a).
Proof.
  revert b. induction l as [|x l IH]; intros b Hb Hh; [done|]. simpl.
  destruct b as [|b]; simpl in *.
  - injection Hb as ->. rewrite lookup_app_l by (by rewrite length_replicate).
    by apply lookup_replicate_2.
  - rewrite lookup_app_r by (rewrite length_replicate; lia).
    rewrite length_replicate.
    replace (H + b * H + h - H) with (b * H + h) by lia. by apply IH.
Qed.

(** C6. A mask of shape (batch, seq_len) is expanded to
    (batch * heads, seq_len, seq_len): plane [b * heads + h] repeats row
    [b] of the mask for every query position. In the forward pass every
    attention call receives exactly this expansion, whose planes never
    depend on the query position: no causal mask is applied. *)
Theorem create_mask_is_key_mask :
  (forall (A : Type) (H S : nat) (mask : list (list A)),
     Forall (fun row => length row = S) mask ->
     exists m3,
       create_mask H mask S = Ok m3 /\
       length m3 = length mask * H /\
       Forall (fun plane => length plane = S /\
                            Forall (fun row => length row = S) plane) m3 /\
       forall b h row, mask !! b = Some row -> h < H ->
         m3 !! (b * H + h) = Some (replicate S row))
  /\
  (forall self s x (mask : mask2),
     emits (fun e =>
              match e with
              | EvAttention attn_mask =>
                  exists cur m3,
                    create_mask (heads self) mask cur = Ok m3 /\
                    attn_mask = Some m3 /\
                    Forall (fun plane => exists row, plane = replicate cur row) m3
              | _ => True
              end)
           (forward self s x (Some mask))).
Proof.
  split.
  - intros A H S mask Hrect. eexists. split; [by apply create_mask_closed_form|].
    split; [|split].
    + clear Hrect. induction mask as [|row mask IH]; simpl; [done|].
      rewrite length_app, length_replicate, IH. lia.
    + apply Forall_flat_map. eapply Forall_impl; [exact Hrect|].
      intros row Hrow. simpl. apply Forall_replicate.
      split; [apply length_replicate|by apply Forall_replicate].
    + intros b h row Hb Hh.
      by apply (flat_map_replicate_lookup (replicate S)).
  - intros self s x mask. apply forward_emits; [done|done|].
    intros m cur m3 [= <-] Hm3. exists cur, m3.
    split; [done|]. split; [done|]. by eapply create_mask_planes.
Qed.

(** The expansion of a batch of two rows for two heads. *)
Lemma create_mask_is_key_mask_witness :
  exists m3,
    create_mask 2 [[1; 1; 0]; [1; 0; 0]]%Z 3 = Ok m3 /\
    length m3 = 2 * 2 /\
    Forall (fun plane => length plane = 3 /\
                         Forall (fun row => length row = 3) plane) m3 /\
    forall b h row, [[1; 1; 0]; [1; 0; 0]]%Z !! b = Some row -> h < 2 ->
      m3 !! (b * 2 + h) = Some (replicate 3 row).
Proof.
  apply (proj1 create_mask_is_key_mask Z 2 3 [[1; 1; 0]; [1; 0; 0]]%Z).
  repeat constructor.
Defined.

End ForwardFacts.

(** ** Weight tying *)

Section TyingFacts.
Import Torch Model.

(** C7. The output projection built by the constructor has no bias and its
    weight field is the embedding's parameter: the two names read the same
    tensor in every store, in particular after any number of optimizer
    steps, and a write through one name is read through the other. Every
    parameter is updated once per step. *)
Theorem output_layer_tied (a : init_args) (s0 : store) (m : GPTModel) (s : store) :
  init a s0 = Ok (m, s) ->
  bias (output_layer m) = None /\
  weight (output_layer m) = embedding_weight m /\
  NoDup (parameters m) /\
  (forall updates : list (loc -> tensor -> tensor),
     let s' := foldl (fun s update => optimizer_step m update s) s updates in
     s' !! weight (output_layer m) = s' !! embedding_weight m) /\
  (forall (s' : store) (v : tensor),
     <[embedding_weight m := v]> s' !! weight (output_layer m) = Some v /\
     <[weight (output_layer m) := v]> s' !! embedding_weight m = Some v).
Proof.
  unfold init. simpl.
  destruct (Util.sinusoidal_positional_encoding _ _) as [pe|e]; [|done].
  cbn [rbind].
  destruct (new_layers _ _ _) as [blocks s2].
  intros [= <- <-]. cbn [bias weight output_layer embedding_weight].
  split; [done|]. split; [done|]. split; [apply NoDup_remove_dups|].
  split; [done|]. intros s' v. split; apply lookup_insert_eq.
Qed.

(** The constructor run on the toy hyperparameters. *)
Lemma output_layer_tied_witness :
  exists m s,
    init Toy.args ∅ = Ok (m, s) /\
    bias (output_layer m) = None /\
    weight (output_layer m) = embedding_weight m.
Proof.
  assert (H : exists m s, init Toy.args ∅ = Ok (m, s))
    by (eexists _, _; reflexivity).
  destruct H as (m & s & H). exists m, s. split; [exact H|].
  destruct (output_layer_tied _ _ _ _ H) as (Hb & Hw & _). by split.
Defined.

End TyingFacts.

(** ** The masked loss *)

Section LossFacts.
Import Torch Model.
Local Open Scope R_scope.


Lemma view_rows_concat {A} (n : nat) (rows : list (list A)) :
  (0 < n)%nat -> Forall (fun row => length row = n) rows ->
  view_rows n (concat rows) = Ok rows.
Proof.
  intros Hn Hrows. unfold view_rows.
  destruct (Nat.eqb_spec n 0); [lia|].
  rewrite (concat_length_uniform n) by done.
  rewrite Nat.Div0.mod_mul, Nat.eqb_refl, Nat.div_mul by lia.
  by rewrite chunks_concat.
Qed.







End LossFacts.

(** ** Nucleus filtering *)

Section SortFacts.
Import Torch Predict.
Local Open Scope R_scope.

Lemma insert_desc_perm (p : nat * R) (l : list (nat * R)) :
  insert_desc p l ≡ₚ p :: l.
Proof.
  induction l as [|q l IH]; simpl; [done|].
  destruct (bool_decide (q.2 <= p.2)); [done|].
  rewrite IH. apply Permutation_swap.
Qed.

Lemma stable_sort_perm (logits : list R) :
  stable_sort logits ≡ₚ imap (fun i x => (i, x)) logits.
Proof.
  unfold stable_sort. induction (imap (fun i x => (i, x)) logits) as [|p l IH];
    simpl; [done|].
  by rewrite insert_desc_perm, IH.
Qed.

Lemma insert_desc_sorted (p : nat * R) (l : list (nat * R)) :
  StronglySorted (fun a b => b.2 <= a.2) l ->
  StronglySorted (fun a b => b.2 <= a.2) (insert_desc p l).
Proof.
  induction 1 as [|q l Hs IH Hq]; simpl; [by repeat constructor|].
  destruct (bool_decide (q.2 <= p.2)) eqn:Hdec.
  - apply bool_decide_eq_true in Hdec.
    constructor; [by constructor|]. constructor; [done|].
    eapply Forall_impl; [exact Hq|]. intros r Hr. simpl in *. lra.
  - apply bool_decide_eq_false in Hdec.
    constructor; [done|]. rewrite insert_desc_perm.
    constructor; [simpl; lra|done].
Qed.

Lemma stable_sort_sorted (logits : list R) :
  StronglySorted (fun a b => b.2 <= a.2) (stable_sort logits).
Proof.
  unfold stable_sort. induction (imap (fun i x => (i, x)) logits) as [|p l IH];
    simpl; [constructor|].
  by apply insert_desc_sorted.
Qed.

(** The insertion sort is a descending sort. *)
Lemma stable_sort_descending : descending_sort stable_sort.
Proof. intros logits. split; [apply stable_sort_perm|apply stable_sort_sorted]. Qed.

End SortFacts.

Section SoftmaxFacts.
Import Torch Predict.
Local Open Scope R_scope.

Lemma sum_list_exp_nonneg (l : list R) : 0 <= sum_list (map exp l).
Proof.
  induction l as [|x l IH]; simpl; [lra|].
  pose proof (exp_pos x). lra.
Qed.

Lemma sum_list_exp_pos (l : list R) : l <> [] -> 0 < sum_list (map exp l).
Proof.
  destruct l as [|x l]; [done|]. intros _. simpl.
  pose proof (exp_pos x). pose proof (sum_list_exp_nonneg l). lra.
Qed.

Lemma sum_list_scale (l : list R) (k : R) :
  sum_list (map (fun x => x / k) l) = sum_list l / k.
Proof. induction l as [|x l IH]; simpl; [lra|]. rewrite IH. lra. Qed.

Lemma sum_list_perm (l l' : list R) : l ≡ₚ l' -> sum_list l = sum_list l'.
Proof.
  induction 1 as [|x l l' _ IH|x y l|l l' l'' _ IH1 _ IH2]; simpl;
    [done|by rewrite IH|lra|congruence].
Qed.

Lemma softmax_length (l : list R) : length (softmax l) = length l.
Proof. unfold softmax. by rewrite !length_map. Qed.

Lemma softmax_pos (l : list R) : Forall (fun p => 0 < p) (softmax l).
Proof.
  destruct l as [|x0 l0] eqn:El; [constructor|]. rewrite <- El.
  assert (Hs : 0 < sum_list (map exp l)) by (apply sum_list_exp_pos; by subst).
  unfold softmax. apply Forall_fmap, Forall_fmap, Forall_true. intros x. simpl.
  apply Rdiv_lt_0_compat; [apply exp_pos|done].
Qed.

Lemma softmax_sum (l : list R) : l <> [] -> sum_list (softmax l) = 1.
Proof.
  intros Hl. unfold softmax. rewrite sum_list_scale.
  pose proof (sum_list_exp_pos l Hl). by field_simplify_eq; [|lra].
Qed.

(** The mass of the first [n] entries of a softmax. *)
Lemma softmax_take (l : list R) (n : nat) :
  sum_list (take n (softmax l)) =
    sum_list (map exp (take n l)) / sum_list (map exp l).
Proof.
  unfold softmax. rewrite <- !fmap_take. apply sum_list_scale.
Qed.

Lemma cumsum_from_length (acc : R) (l : list R) :
  length (cumsum_from acc l) = length l.
Proof. revert acc. induction l as [|x l IH]; intros acc; simpl; [done|]. by rewrite IH. Qed.

(** Entry [j] of a cumulative sum is the sum of the entries up to [j]. *)
Lemma cumsum_from_lookup (acc : R) (l : list R) (j : nat) :
  (j < length l)%nat ->
  cumsum_from acc l !! j = Some (acc + sum_list (take (S j) l)).
Proof.
  revert acc j. induction l as [|x l IH]; intros acc j Hj; simpl in Hj; [lia|].
  destruct j as [|j]; simpl.
  - f_equal. lra.
  - rewrite IH by lia. simpl. f_equal. lra.
Qed.

Lemma sum_list_nonneg (l : list R) :
  Forall (fun p => 0 < p) l -> 0 <= sum_list l.
Proof. induction 1 as [|x l Hx _ IH]; simpl; lra. Qed.

(** With positive terms every partial sum lies strictly above the start
    and at most at the total. *)
Lemma cumsum_from_bounds (acc : R) (l : list R) :
  Forall (fun p => 0 < p) l ->
  Forall (fun c => acc < c <= acc + sum_list l) (cumsum_from acc l).
Proof.
  intros Hl. revert acc. induction Hl as [|x l Hx Hl IH]; intros acc; simpl;
    [constructor|].
  pose proof (sum_list_nonneg l Hl).
  constructor; [lra|].
  eapply Forall_impl; [apply IH|]. intros c Hc. simpl in Hc. lra.
Qed.

(** Every partial sum is at least the first one. *)
Lemma cumsum_from_first (acc : R) (l : list R) (c0 c : R) (j : nat) :
  Forall (fun p => 0 < p) l ->
  cumsum_from acc l !! 0%nat = Some c0 -> cumsum_from acc l !! j = Some c ->
  c0 <= c.
Proof.
  intros Hl H0 Hj. destruct l as [|x l]; [done|]. simpl in *.
  injection H0 as <-. destruct j as [|j]; simpl in Hj.
  - injection Hj as <-. lra.
  - inversion Hl as [|? ? _ Hl']; subst.
    pose proof (cumsum_from_bounds (acc + x) l Hl') as Hb.
    apply list_elem_of_lookup_2 in Hj.
    pose proof (proj1 (Forall_forall _ _) Hb c Hj) as Hc. simpl in Hc. lra.
Qed.

(** Membership in a tensor indexed by a boolean mask. *)
Lemma elem_of_bool_index {A} (a : list A) (b : list bool) (x : A) :
  x ∈ map fst (filter (fun p => p.2 = true) (zip a b)) <->
  exists j, a !! j = Some x /\ b !! j = Some true.
Proof.
  rewrite list_elem_of_fmap. split.
  - intros [[y flag] [-> [Hflag [j Hj]%list_elem_of_lookup]%list_elem_of_filter]].
    simpl in Hflag. subst flag.
    apply lookup_zip_with_Some in Hj as (y' & f' & [= <- <-] & Ha & Hb).
    by exists j.
  - intros (j & Ha & Hb). exists (x, true). split; [done|].
    apply list_elem_of_filter. split; [done|].
    apply list_elem_of_lookup. exists j.
    apply lookup_zip_with_Some. by exists x, true.
Qed.

Lemma shifted_lookup (flags : list bool) (j : nat) :
  (false :: removelast flags) !! S j = Some true <->
  flags !! j = Some true /\ (S j < length flags)%nat.
Proof.
  simpl. rewrite removelast_take. split.
  - intros H. assert (j < length flags - 1)%nat.
    { apply lookup_lt_Some in H. rewrite length_take in H. lia. }
    rewrite lookup_take_lt in H by done. split; [done|lia].
  - intros [H Hlt]. rewrite lookup_take_lt by lia. done.
Qed.

Lemma StronglySorted_lookup_lt {A} (R : A -> A -> Prop) (l : list A) j k p q :
  StronglySorted R l -> (j < k)%nat -> l !! j = Some p -> l !! k = Some q -> R p q.
Proof.
  intros Hs. revert j k. induction Hs as [|a l Hs IH Ha]; intros j k Hlt Hj Hk;
    [done|].
  destruct k as [|k]; [lia|]. simpl in Hk. destruct j as [|j]; simpl in Hj.
  - injection Hj as <-. apply list_elem_of_lookup_2 in Hk.
    by apply (proj1 (Forall_forall _ _) Ha).
  - apply (IH j k); [lia|done..].
Qed.

End SoftmaxFacts.

Section NucleusFacts.
Import Torch Predict.
Local Open Scope R_scope.

Context (sort : list R -> list (nat * R)) (Hsort : descending_sort sort).

Lemma sort_perm (logits : list R) :
  sort logits ≡ₚ imap (fun i x => (i, x)) logits.
Proof using Hsort. apply Hsort. Qed.

Lemma sort_sorted (logits : list R) :
  StronglySorted (fun a b => b.2 <= a.2) (sort logits).
Proof using Hsort. apply Hsort. Qed.

Lemma sort_length (logits : list R) : length (sort logits) = length logits.
Proof using Hsort. by rewrite sort_perm, length_imap. Qed.

Lemma sort_elem (logits : list R) (i : nat) (x : R) :
  (i, x) ∈ sort logits <-> logits !! i = Some x.
Proof using Hsort.
  rewrite sort_perm, list_elem_of_lookup. split.
  - intros [j Hj]. rewrite list_lookup_imap in Hj.
    destruct (logits !! j) as [y|] eqn:Hy; simpl in Hj; [|done].
    by injection Hj as <- <-.
  - intros Hi. exists i. by rewrite list_lookup_imap, Hi.
Qed.

(** The sorted values are a rearrangement of the logits. *)
Lemma sort_values_perm (logits : list R) : map snd (sort logits) ≡ₚ logits.
Proof using Hsort.
  rewrite sort_perm.
  assert (Heq : map snd (imap (fun i x => (i, x)) logits) = logits);
    [|by rewrite Heq].
  apply list_eq. intros i. rewrite list_lookup_fmap, list_lookup_imap.
  by destruct (logits !! i).
Qed.

Lemma sorted_indices_perm (logits : list R) :
  sorted_indices sort logits ≡ₚ seq 0 (length logits).
Proof using Hsort.
  unfold sorted_indices. rewrite sort_perm.
  assert (Heq : map fst (imap (fun i x => (i, x)) logits) = seq 0 (length logits));
    [|by rewrite Heq].
  apply list_eq. intros i.
  rewrite list_lookup_fmap, list_lookup_imap.
  destruct (logits !! i) as [x|] eqn:Hx; simpl.
  - symmetry. apply lookup_seq. split; [done|]. by eapply lookup_lt_Some.
  - symmetry. apply lookup_ge_None. rewrite length_seq. by apply lookup_ge_None.
Qed.

Lemma sorted_indices_length (logits : list R) :
  length (sorted_indices sort logits) = length logits.
Proof using Hsort. unfold sorted_indices. by rewrite length_map, sort_length. Qed.

Lemma sorted_indices_NoDup (logits : list R) : NoDup (sorted_indices sort logits).
Proof using Hsort. rewrite sorted_indices_perm. apply NoDup_seq. Qed.

Lemma sorted_indices_elem (logits : list R) (i : nat) :
  i ∈ sorted_indices sort logits <-> (i < length logits)%nat.
Proof using Hsort. rewrite sorted_indices_perm, elem_of_seq. lia. Qed.

(** The logit at the head of the sorted order is a maximum. *)
Lemma sorted_indices_head_max (logits : list R) (i0 : nat) :
  sorted_indices sort logits !! 0%nat = Some i0 ->
  exists x0, sort logits !! 0%nat = Some (i0, x0) /\ logits !! i0 = Some x0 /\
             forall x, x ∈ logits -> x <= x0.
Proof using Hsort.
  unfold sorted_indices. intros H0.
  pose proof (sort_sorted logits) as Hs.
  pose proof (sort_elem logits) as He.
  destruct (sort logits) as [|[j x0] l]; [done|].
  injection H0 as ->. exists x0. split; [done|]. split.
  - apply He. by left.
  - intros x [k Hk]%list_elem_of_lookup.
    apply He in Hk. apply elem_of_cons in Hk as [[= _ ->]|Hk]; [lra|].
    apply StronglySorted_inv in Hs as [_ Hall].
    by apply (proj1 (Forall_forall _ _) Hall (k, x)).
Qed.

Lemma cumulative_probs_length (logits : list R) :
  length (cumulative_probs sort logits) = length logits.
Proof using Hsort.
  unfold cumulative_probs, cumsum.
  by rewrite cumsum_from_length, softmax_length, length_map, sort_length.
Qed.

(** Entry [j] of the cumulative probabilities is the softmax mass of the
    first [j + 1] values of the sorted order. *)
Lemma cumulative_probs_lookup (logits : list R) (j : nat) :
  (j < length logits)%nat ->
  cumulative_probs sort logits !! j =
    Some (sum_list (map exp (take (S j) (map snd (sort logits)))) /
          sum_list (map exp (map snd (sort logits)))).
Proof using Hsort.
  intros Hj. unfold cumulative_probs, cumsum.
  rewrite cumsum_from_lookup
    by (by rewrite softmax_length, length_map, sort_length).
  rewrite softmax_take. f_equal. lra.
Qed.

Lemma cumulative_probs_le_1 (logits : list R) (c : R) :
  c ∈ cumulative_probs sort logits -> 0 < c <= 1.
Proof using Hsort.
  intros Hc. unfold cumulative_probs, cumsum in Hc.
  set (vals := map snd (sort logits)) in *.
  assert (Hne : vals <> []).
  { intros E. apply list_elem_of_lookup in Hc as [j Hj].
    apply lookup_lt_Some in Hj.
    rewrite cumsum_from_length, softmax_length, E in Hj. simpl in Hj. lia. }
  pose proof (cumsum_from_bounds 0 (softmax vals) (softmax_pos vals)) as Hb.
  pose proof (proj1 (Forall_forall _ _) Hb c Hc) as Hr. simpl in Hr.
  rewrite softmax_sum in Hr by done. lra.
Qed.

Lemma cumulative_probs_first (logits : list R) (c0 c : R) (j : nat) :
  cumulative_probs sort logits !! 0%nat = Some c0 ->
  cumulative_probs sort logits !! j = Some c -> c0 <= c.
Proof. apply cumsum_from_first, softmax_pos. Qed.

(** The indices whose logit is replaced by the filter value. *)
Lemma removed_iff (logits : list R) (top_p : R) (i : nat) :
  i ∈ map fst (filter (fun p => p.2 = true)
                 (zip (sorted_indices sort logits)
                      (false :: removelast
                         (map (fun c => bool_decide (top_p < c))
                              (cumulative_probs sort logits))))) <->
  exists j c, sorted_indices sort logits !! S j = Some i /\
              cumulative_probs sort logits !! j = Some c /\ top_p < c.
Proof using Hsort.
  rewrite elem_of_bool_index. split.
  - intros ([|j] & Hi & Hflag); [done|].
    apply shifted_lookup in Hflag as [Hflag _].
    rewrite list_lookup_fmap in Hflag.
    destruct (cumulative_probs sort logits !! j) as [c|] eqn:Hc; simpl in Hflag; [|done].
    injection Hflag as Hflag. apply bool_decide_eq_true in Hflag.
    by exists j, c.
  - intros (j & c & Hi & Hc & Hlt). exists (S j). split; [done|].
    apply shifted_lookup. split.
    + rewrite list_lookup_fmap, Hc. simpl. f_equal. by apply bool_decide_eq_true.
    + apply lookup_lt_Some in Hi.
      by rewrite sorted_indices_length, <- cumulative_probs_length in Hi;
         rewrite length_map.
Qed.

(** The same, with the cumulative probability written out. *)
Lemma removed_mass_iff (logits : list R) (top_p : R) (i : nat) :
  (exists j c, sorted_indices sort logits !! S j = Some i /\
               cumulative_probs sort logits !! j = Some c /\ top_p < c) <->
  exists j, map fst (sort logits) !! S j = Some i /\
            top_p < sum_list (map exp (take (S j) (map snd (sort logits)))) /
                    sum_list (map exp (map snd (sort logits))).
Proof using Hsort.
  split.
  - intros (j & c & Hi & Hc & Hlt). exists j. split; [done|].
    assert (Hj : (j < length logits)%nat).
    { apply lookup_lt_Some in Hc. by rewrite cumulative_probs_length in Hc. }
    rewrite (cumulative_probs_lookup logits j Hj) in Hc. by injection Hc as <-.
  - intros (j & Hi & Hlt). eexists j, _. split; [done|]. split; [|exact Hlt].
    apply cumulative_probs_lookup.
    apply lookup_lt_Some in Hi. rewrite length_map, sort_length in Hi. lia.
Qed.

Lemma top_p_filtering_unfold (logits : list R) (top_p : R) :
  logits <> [] ->
  top_p_filtering sort logits top_p =
    Ok (imap (fun i x =>
                if bool_decide
                     (i ∈ map fst (filter (fun p => p.2 = true)
                            (zip (sorted_indices sort logits)
                                 (false :: removelast
                                    (map (fun c => bool_decide (top_p < c))
                                         (cumulative_probs sort logits))))))
                then NegInf else Fin x)
             logits).
Proof using Hsort.
  intros Hne. unfold top_p_filtering.
  change (cumsum (softmax (map snd (sort logits))))
    with (cumulative_probs sort logits).
  change (map fst (sort logits)) with (sorted_indices sort logits).
  destruct (map (fun c => bool_decide (top_p < c)) (cumulative_probs sort logits))
    as [|f flags] eqn:Hflags; [|done].
  apply (f_equal length) in Hflags.
  rewrite length_map, cumulative_probs_length in Hflags.
  by destruct logits.
Qed.

Lemma top_p_filtering_total (logits : list R) (p : R) :
  logits <> [] -> exists filtered, top_p_filtering sort logits p = Ok filtered.
Proof using Hsort. intros H. eexists. by apply top_p_filtering_unfold. Qed.

(** Along the sorted order the values descend, and each is the logit at
    its index. *)
Lemma sort_lookup (logits : list R) j a x :
  sort logits !! j = Some (a, x) -> logits !! a = Some x.
Proof using Hsort. intros H. by apply sort_elem, (list_elem_of_lookup_2 _ j). Qed.

Lemma sort_descending (logits : list R) j k p q :
  (j <= k)%nat -> sort logits !! j = Some p -> sort logits !! k = Some q ->
  q.2 <= p.2.
Proof using Hsort.
  intros Hle Hj Hk. destruct (decide (j = k)) as [->|Hne].
  - assert (p = q) as -> by congruence. lra.
  - apply (StronglySorted_lookup_lt _ _ j k p q (sort_sorted logits)); [lia|done..].
Qed.

Lemma sorted_indices_descending (logits : list R) j k a b x y :
  (j <= k)%nat ->
  sorted_indices sort logits !! j = Some a -> sorted_indices sort logits !! k = Some b ->
  logits !! a = Some x -> logits !! b = Some y -> y <= x.
Proof using Hsort.
  unfold sorted_indices. rewrite !list_lookup_fmap. intros Hle Hj Hk Hx Hy.
  destruct (sort logits !! j) as [[a' x']|] eqn:Ej; simpl in Hj; [|done].
  destruct (sort logits !! k) as [[b' y']|] eqn:Ek; simpl in Hk; [|done].
  injection Hj as ->. injection Hk as ->.
  pose proof (sort_lookup logits j a x' Ej) as Hx'.
  pose proof (sort_lookup logits k b y' Ek) as Hy'.
  assert (x' = x) as -> by congruence. assert (y' = y) as -> by congruence.
  exact (sort_descending logits j k (a, x) (b, y) Hle Ej Ek).
Qed.

(** C5. Given the descending sort of the logits, nucleus filtering
    accumulates the softmax probabilities along the sorted order and
    replaces by minus infinity exactly the tokens at a sorted position
    [j + 1] for which the cumulative probability up to position [j], the
    sum of [exp] of the first [j + 1] sorted values over the sum of [exp]
    of all of them, exceeds [top_p]. The first token of the order, a
    token of maximal logit, is always kept; for every [top_p] below its
    probability it is the only survivor, and with [top_p = 1] nothing is
    filtered. The vector has to hold at least one logit. *)
Theorem top_p_filtering_nucleus (logits : list R) (top_p : R) :
  logits <> [] ->
  let sorted := sort logits in
  let mass := fun j =>
    sum_list (map exp (take (S j) (map snd sorted))) /
    sum_list (map exp (map snd sorted)) in
  exists out,
    top_p_filtering sort logits top_p = Ok out /\
    length out = length logits /\
    map fst sorted ≡ₚ seq 0 (length logits) /\
    (forall j a x, sorted !! j = Some (a, x) -> logits !! a = Some x) /\
    (forall j k p q, (j <= k)%nat ->
       sorted !! j = Some p -> sorted !! k = Some q -> q.2 <= p.2) /\
    (forall i x, logits !! i = Some x ->
       (out !! i = Some NegInf \/ out !! i = Some (Fin x)) /\
       (out !! i = Some NegInf <->
        exists j, map fst sorted !! S j = Some i /\ top_p < mass j)) /\
    (exists i0 x0,
       sorted !! 0%nat = Some (i0, x0) /\
       (forall x, x ∈ logits -> x <= x0) /\
       out !! i0 = Some (Fin x0) /\
       (top_p < exp x0 / sum_list (map exp logits) ->
        forall i, (i < length logits)%nat -> i <> i0 -> out !! i = Some NegInf)) /\
    (top_p = 1 -> out = map Fin logits).
Proof using Hsort.
  intros Hne sorted mass. subst sorted mass. cbv beta.
  eexists. split; [by apply top_p_filtering_unfold|].
  set (removed := map fst (filter _ _)).
  assert (Hout : forall i x, logits !! i = Some x ->
            imap (fun i x => if bool_decide (i ∈ removed) then NegInf else Fin x)
                 logits !! i =
            Some (if bool_decide (i ∈ removed) then NegInf else Fin x)).
  { intros i x Hx. by rewrite list_lookup_imap, Hx. }
  assert (Hhead : exists i0, sorted_indices sort logits !! 0%nat = Some i0).
  { destruct (sorted_indices sort logits) as [|i0 l] eqn:E; [|by exists i0].
    apply (f_equal length) in E. rewrite sorted_indices_length in E.
    by destruct logits. }
  destruct Hhead as [i0 Hi0].
  assert (Hkeep : i0 ∉ removed).
  { intros (j & c & Hj & _)%removed_iff.
    pose proof (NoDup_lookup _ _ _ _ (sorted_indices_NoDup logits) Hi0 Hj). lia. }
  split; [apply length_imap|].
  split; [apply sorted_indices_perm|].
  split; [apply sort_lookup|].
  split; [apply sort_descending|].
  split; [|split].
  - intros i x Hx. rewrite (Hout i x Hx). split.
    + destruct (bool_decide (i ∈ removed)); [by left|by right].
    + rewrite <- removed_mass_iff, <- removed_iff. fold removed.
      destruct (bool_decide (i ∈ removed)) eqn:Hdec.
      * apply bool_decide_eq_true in Hdec. by split.
      * apply bool_decide_eq_false in Hdec. split; [done|]. by intros ?.
  - destruct (sorted_indices_head_max logits i0 Hi0) as (x0 & Hs0 & Hx0 & Hmax).
    exists i0, x0. split; [done|]. split; [done|].
    split; [rewrite (Hout i0 x0 Hx0); by rewrite bool_decide_eq_false_2|].
    intros Hlt i Hi Hneq.
    assert (Hc0 : cumulative_probs sort logits !! 0%nat =
                  Some (exp x0 / sum_list (map exp logits))).
    { rewrite cumulative_probs_lookup by (destruct logits; [done|simpl; lia]).
      f_equal.
      rewrite (sum_list_perm (map exp (map snd (sort logits))) (map exp logits))
        by (apply fmap_Permutation, sort_values_perm).
      destruct (sort logits) as [|p l]; [done|].
      injection Hs0 as ->. simpl. f_equal. lra. }
    destruct (logits !! i) as [x|] eqn:Hx;
      [|apply lookup_ge_None in Hx; lia].
    rewrite (Hout i x Hx), bool_decide_eq_true_2; [done|].
    apply removed_iff.
    apply sorted_indices_elem, list_elem_of_lookup in Hi as [j Hj].
    destruct j as [|j]; [congruence|].
    assert (Hjlt : (j < length (cumulative_probs sort logits))%nat).
    { apply lookup_lt_Some in Hj.
      rewrite sorted_indices_length in Hj. rewrite cumulative_probs_length. lia. }
    apply lookup_lt_is_Some in Hjlt as [c Hc].
    exists j, c. split; [done|]. split; [done|].
    pose proof (cumulative_probs_first logits _ c j Hc0 Hc). lra.
  - intros ->. rewrite <- imap_const. apply imap_ext. intros i x Hx. simpl.
    rewrite bool_decide_eq_false_2; [done|].
    intros (j & c & _ & Hc & Hlt)%removed_iff.
    apply list_elem_of_lookup_2, cumulative_probs_le_1 in Hc. lra.
Qed.

End NucleusFacts.

Section NucleusExample.
Import Torch Predict.
Local Open Scope R_scope.

Lemma exp_1_gt_1 : 1 < exp 1.
Proof. rewrite <- exp_0 at 1. apply exp_increasing. lra. Qed.

(** The insertion sort on the logits [0, 1]: token 1 comes first. *)
Lemma stable_sort_two : stable_sort [0; 1] = [(1%nat, 1); (0%nat, 0)].
Proof.
  unfold stable_sort. cbn [imap foldr insert_desc].
  by rewrite bool_decide_eq_false_2 by (simpl; lra).
Qed.

(** The contract on the logits [0, 1] with [top_p = 0.5]: token 1 has
    probability [e / (1 + e)], more than one half, so token 0, the second
    of the order, is filtered. *)
Lemma top_p_filtering_nucleus_witness :
  top_p_filtering stable_sort [0; 1] 0.5 = Ok [NegInf; Fin 1].
Proof.
  destruct (top_p_filtering_nucleus stable_sort stable_sort_descending [0; 1] 0.5
              ltac:(done))
    as (out & Hrun & Hlen & _ & _ & _ & _ & (i0 & x0 & Hs0 & _ & Hkept & Honly) & _).
  rewrite stable_sort_two in Hs0. injection Hs0 as <- <-.
  rewrite Hrun. f_equal.
  assert (Hp : 0.5 < exp 1 / sum_list (map exp [0; 1])).
  { simpl. rewrite exp_0. pose proof exp_1_gt_1 as He.
    assert (Hd : exp 1 / (1 + (exp 1 + 0)) - 1 / 2 = (exp 1 - 1) / (2 * (1 + exp 1)))
      by (field; lra).
    assert (0 < (exp 1 - 1) / (2 * (1 + exp 1)))
      by (apply Rdiv_lt_0_compat; lra).
    lra. }
  pose proof (Honly Hp 0%nat ltac:(simpl; lia) ltac:(done)) as H0.
  destruct out as [|a [|b [|c out]]]; simpl in Hlen; try lia.
  simpl in H0, Hkept. by injection H0 as ->; injection Hkept as ->.
Defined.

End NucleusExample.

(** ** The decoder *)

Section RunFacts.
Import Torch.

Lemma bind_run {A B} (c : W A) (k : A -> W B) log a log1 :
  c log = (Ok a, log1) -> bind c k log = k a log1.
Proof. intros H. unfold bind. by rewrite H. Qed.

Lemma bind_ok {A B} (c : W A) (k : A -> W B) log b log' :
  bind c k log = (Ok b, log') ->
  exists a log1, c log = (Ok a, log1) /\ k a log1 = (Ok b, log').
Proof.
  unfold bind. destruct (c log) as [[a|e] log1]; [|done].
  intros H. by exists a, log1.
Qed.

Lemma lift_ok {A} (r : result A) log a log' :
  lift r log = (Ok a, log') -> r = Ok a /\ log' = log.
Proof. unfold lift. by intros [= -> ->]. Qed.

Lemma tell_ok (e : event) log u log' :
  tell e log = (Ok u, log') -> log' = log ++ [e].
Proof. unfold tell. by intros [= _ <-]. Qed.

Lemma ret_ok {A} (a : A) log b log' :
  ret a log = (Ok b, log') -> b = a /\ log' = log.
Proof. unfold ret. by intros [= <- <-]. Qed.

(** After a successful first part, the rest only appends to the log. *)
Lemma bind_log_prefix {A B} (P : event -> Prop) (c : W A) (k : A -> W B) log a log1 :
  c log = (Ok a, log1) -> emits P (k a) ->
  exists new, (bind c k log).2 = log1 ++ new.
Proof.
  intros Hc Hk. rewrite (bind_run _ _ _ _ _ Hc).
  destruct (Hk log1) as (new & E & _). by exists new.
Qed.

End RunFacts.

Section UnmaskedForward.
Import Torch Model.

Lemma block_forward_log layer s x mask log y log' :
  block_forward layer s x mask log = (Ok y, log') ->
  log' = log ++ [EvAttention mask].
Proof.
  unfold block_forward. intros H.
  apply bind_ok in H as (u & log1 & ->%tell_ok & H).
  apply bind_ok in H as (ao & log2 & [_ ->]%lift_ok & H).
  apply bind_ok in H as (y1 & log3 & [_ ->]%lift_ok & H).
  apply bind_ok in H as (z & log4 & [_ ->]%lift_ok & H).
  by apply ret_ok in H as [_ ->].
Qed.

Lemma layers_log (layers : list GPTTransformerBlock) s mask x log y log' :
  foldW (fun x layer => block_forward layer s x mask) layers x log = (Ok y, log') ->
  log' = log ++ replicate (length layers) (EvAttention mask).
Proof.
  revert x log. induction layers as [|layer layers IH]; intros x log H; simpl in *.
  - apply ret_ok in H as [_ ->]. by rewrite app_nil_r.
  - apply bind_ok in H as (x1 & log1 & ->%block_forward_log & H).
    apply IH in H as ->. by rewrite <- app_assoc.
Qed.

(** The log of a successful call without mask: the call, the printed line,
    and one attention call without mask per layer. *)
Lemma forward_unmasked_log self s x log out log' :
  forward self s x None log = (Ok out, log') ->
  log' = log ++ EvForward x None :: EvPrint "Mask is None" ::
                replicate (length (layers self)) (EvAttention None).
Proof.
  unfold forward. intros H.
  apply bind_ok in H as (u & log1 & ->%tell_ok & H).
  apply bind_ok in H as (w & log2 & [_ ->]%lift_ok & H).
  apply bind_ok in H as (x1 & log3 & [_ ->]%lift_ok & H).
  apply bind_ok in H as (pos & log4 & [_ ->]%lift_ok & H).
  apply bind_ok in H as (x2 & log5 & [_ ->]%lift_ok & H).
  apply bind_ok in H as (mask' & log6 & Hmask & H).
  apply bind_ok in Hmask as (u' & log7 & ->%tell_ok & [-> ->]%ret_ok).
  apply bind_ok in H as (x3 & log8 & ->%layers_log & H).
  apply bind_ok in H as (w' & log9 & [_ ->]%lift_ok & H).
  apply bind_ok in H as (b & log10 & Hb & H).
  apply ret_ok in H as [_ ->].
  assert (log10 = ((log ++ [EvForward x None]) ++ [EvPrint "Mask is None"]) ++
                  replicate (length (layers self)) (EvAttention None)) as ->.
  { destruct (bias (output_layer self)) as [l|].
    - destruct (s !! l) as [[v|w0|p]|];
        by (apply ret_ok in Hb as [_ ->]) || (by apply lift_ok in Hb as [? _]).
    - by apply ret_ok in Hb as [_ ->]. }
  by rewrite <- !app_assoc.
Qed.

Lemma forward_unmasked self s x : emits unmasked (forward self s x None).
Proof. apply forward_emits; [done| |done]. by intros _. Qed.

End UnmaskedForward.

Section DecoderFacts.
Import Torch Model Predict.
Local Open Scope R_scope.

Context (sort : list R -> list (nat * R)).
Context {RNG : Type} (categorical_sample : RNG -> list R -> Z * RNG).
Context (tokenizer : Tokenizer) (model : GPTModel) (s : store).
Context (temperature top_p : R).

Local Abbreviation step := (decode_step sort categorical_sample tokenizer model s temperature top_p).
Local Abbreviation loop := (decode_loop sort categorical_sample tokenizer model s temperature top_p).
Local Abbreviation generate := (generate_text sort categorical_sample tokenizer model s temperature top_p).

Lemma bind_assoc {A B C} (c : W A) (f : A -> W B) (k : B -> W C) log :
  bind (bind c f) k log = bind c (fun a => bind (f a) k) log.
Proof. unfold bind. by destruct (c log) as [[a|e] log1]. Qed.

Lemma decode_step_unmasked input_ids g : emits unmasked (step input_ids g).
Proof.
  unfold decode_step.
  apply emits_bind; [apply forward_unmasked|]. intros outputs.
  apply emits_bind; [apply emits_lift|]. intros row.
  destruct (bool_decide (temperature = 0)); [destruct row; apply emits_lift|].
  apply emits_bind; [apply emits_lift|]. intros filtered.
  apply emits_bind; [by apply emits_tell|]. intros _.
  destruct (categorical_sample g _) as [next g'].
  destruct (next =? eot_token tokenizer)%Z.
  - apply emits_bind; [by apply emits_tell|]. intros _. apply emits_ret.
  - apply emits_ret.
Qed.

(** At temperature zero an iteration raises, and draws nothing. *)
Lemma decode_step_zero input_ids g log :
  temperature = 0 ->
  exists e new,
    step input_ids g log = (Raise e, log ++ new) /\
    Forall (fun ev => forall p, ev <> EvSample p) new.
Proof.
  intros Hzero. unfold decode_step.
  destruct (forward_emits (fun ev => forall p, ev <> EvSample p)
              model s [input_ids] None) with (log := log) as (new & Hlog & Hnew);
    [done|by intros _|done|].
  unfold bind at 1.
  destruct (forward model s [input_ids] None log) as [[outputs|e] log1];
    simpl in Hlog; subst log1; [|by exists e, new].
  rewrite bool_decide_eq_true_2 by done.
  unfold bind, lift.
  destruct outputs as [|o rest]; [by exists IndexError, new|].
  destruct (last o) as [[|x row]|]; by eexists _, new.
Qed.

Lemma decode_loop_unmasked n input_ids g : emits unmasked (loop n input_ids g).
Proof.
  revert input_ids g. induction n as [|n IH]; intros input_ids g; simpl.
  - apply emits_ret.
  - apply emits_bind; [apply decode_step_unmasked|].
    intros [[ids'|] g']; [apply IH|apply emits_ret].
Qed.

Lemma generate_text_unmasked input_text g : emits unmasked (generate input_text g).
Proof.
  unfold generate_text. destruct (bool_decide _); [apply emits_lift|].
  apply emits_bind; [apply emits_lift|]. intros [|t ids]; [apply emits_lift|].
  apply emits_bind; [by apply emits_tell|]. intros _.
  apply emits_bind; [apply decode_loop_unmasked|]. intros [ids' g'].
  apply emits_bind; [apply emits_lift|]. intros text'.
  apply emits_bind; [by apply emits_tell|]. intros _. apply emits_ret.
Qed.

(** One iteration whose forward pass succeeds: the logits of position 0 of
    the last batch entry are divided by the temperature, filtered, and a
    token is drawn; the end-of-text token stops the loop without being
    appended. *)
Lemma decode_step_run input_ids g log outputs logf o rest row filtered next g' :
  temperature <> 0 ->
  forward model s [input_ids] None log = (Ok outputs, logf) ->
  outputs = o :: rest -> last o = Some row ->
  top_p_filtering sort (map (fun x => x / temperature) row) top_p = Ok filtered ->
  categorical_sample g (softmax_filtered filtered) = (next, g') ->
  step input_ids g log =
    if (next =? eot_token tokenizer)%Z
    then (Ok (None, g'),
          logf ++ [EvSample (softmax_filtered filtered);
                   EvPrint "End of sequence token reached."])
    else (Ok (Some (input_ids ++ [next]), g'),
          logf ++ [EvSample (softmax_filtered filtered)]).
Proof.
  intros Hnz Hf -> Hrow Hfilter Hsample. unfold decode_step.
  rewrite (bind_run _ _ _ _ _ Hf).
  rewrite (bind_run _ _ logf row logf) by (unfold lift; by rewrite Hrow).
  rewrite bool_decide_eq_false_2 by done.
  rewrite (bind_run _ _ logf filtered logf) by (unfold lift; by rewrite Hfilter).
  rewrite (bind_run _ _ logf tt (logf ++ [EvSample (softmax_filtered filtered)]))
    by done.
  rewrite Hsample. destruct (next =? eot_token tokenizer)%Z; [|done].
  unfold bind, tell, ret. by rewrite <- app_assoc.
Qed.

(** The call up to the loop. *)
Lemma generate_text_enter input_text g log prompt :
  Dataset.strip input_text <> EmptyString ->
  encode tokenizer input_text = Ok prompt -> prompt <> [] ->
  generate input_text g log =
    bind (loop (sequence_length model) prompt g)
         (fun r =>
            bind (lift (decode tokenizer r.1))
                 (fun generated_text =>
                    bind (tell (EvPrint "Generated text"))
                         (fun _ => ret (generated_text, r.1, r.2))))
         (log ++ [EvPrint "Encoded input ids"]).
Proof.
  intros Hstrip Henc Hne. unfold generate_text.
  rewrite bool_decide_eq_false_2 by done.
  rewrite (bind_run _ _ log prompt log) by (unfold lift; by rewrite Henc).
  destruct prompt as [|t prompt']; [done|].
  rewrite (bind_run _ _ log tt (log ++ [EvPrint "Encoded input ids"])) by done.
  unfold bind. by destruct (loop _ _ _ _) as [[[ids' g']|e] log'].
Qed.

(** The run in which the first draw is the end-of-text token. *)
Lemma generate_text_eot_run input_text g g' log prompt outputs logf o rest row
    filtered generated_text n :
  temperature <> 0 ->
  Dataset.strip input_text <> EmptyString ->
  encode tokenizer input_text = Ok prompt -> prompt <> [] ->
  sequence_length model = S n ->
  forward model s [prompt] None (log ++ [EvPrint "Encoded input ids"])
    = (Ok outputs, logf) ->
  outputs = o :: rest -> last o = Some row ->
  top_p_filtering sort (map (fun x => x / temperature) row) top_p = Ok filtered ->
  categorical_sample g (softmax_filtered filtered) = (eot_token tokenizer, g') ->
  decode tokenizer prompt = Ok generated_text ->
  generate input_text g log =
    (Ok (generated_text, prompt, g'),
     log ++ [EvPrint "Encoded input ids"; EvForward [prompt] None;
             EvPrint "Mask is None"] ++
     replicate (length (layers model)) (EvAttention None) ++
     [EvSample (softmax_filtered filtered);
      EvPrint "End of sequence token reached.";
      EvPrint "Generated text"]).
Proof.
  intros Hnz Hstrip Henc Hne Hlen Hf Hout Hrow Hfilter Hsample Hdec.
  rewrite (generate_text_enter _ _ _ prompt) by done.
  rewrite Hlen. cbn [decode_loop]. rewrite bind_assoc.
  pose proof (decode_step_run prompt g _ _ _ _ _ _ _ _ _ Hnz Hf Hout Hrow Hfilter
                Hsample) as Hstep.
  rewrite Z.eqb_refl in Hstep.
  rewrite (bind_run _ _ _ _ _ Hstep).
  unfold bind at 1, ret at 1. cbn [fst snd].
  unfold bind, lift, tell, ret. rewrite Hdec.
  apply forward_unmasked_log in Hf as ->.
  f_equal. rewrite <- !app_assoc. simpl. reflexivity.
Qed.


(** At temperature zero a call that enters the loop raises in its first
    iteration, and draws nothing. *)
Lemma generate_text_zero input_text g log prompt n :
  temperature = 0 ->
  Dataset.strip input_text <> EmptyString ->
  encode tokenizer input_text = Ok prompt -> prompt <> [] ->
  sequence_length model = S n ->
  exists e new,
    generate input_text g log = (Raise e, log ++ new) /\
    Forall (fun ev => forall p, ev <> EvSample p) new.
Proof.
  intros Hzero Hstrip Henc Hne Hlen.
  rewrite (generate_text_enter _ _ _ prompt) by done.
  rewrite Hlen. cbn [decode_loop]. rewrite bind_assoc.
  destruct (decode_step_zero prompt g (log ++ [EvPrint "Encoded input ids"]) Hzero)
    as (e & new & Hstep & Hnew).
  exists e, (EvPrint "Encoded input ids" :: new).
  unfold bind at 1. rewrite Hstep. rewrite <- app_assoc.
  split; [done|]. by constructor.
Qed.

End DecoderFacts.

(** ** The toy instance *)

Section ToyFacts.
Import Torch Model Predict.
Local Open Scope R_scope.

Lemma toy_read2 :
  read2 Toy.params (embedding_weight Toy.model) = Ok [[0; 1]; [0; 0]; [0; 2]].
Proof.
  unfold read2, Toy.params. change (embedding_weight Toy.model) with 1%positive.
  rewrite lookup_insert_ne by done. by rewrite lookup_insert_eq.
Qed.

Lemma toy_read3 :
  read3 Toy.params (pos_embbedings Toy.model) = Ok [[[0; 1]; [0; 1]; [0; 1]; [0; 1]]].
Proof.
  unfold read3, Toy.params. change (pos_embbedings Toy.model) with 2%positive.
  by rewrite lookup_insert_eq.
Qed.

(** The toy model on the prompt "A": one position, three logits. *)
Lemma toy_forward (log : list event) :
  exists l0 l1 l2 logf,
    forward Toy.model Toy.params [[0%Z]] None log = (Ok [[[l0; l1; l2]]], logf).
Proof.
  unfold forward.
  change (weight (output_layer Toy.model)) with (embedding_weight Toy.model).
  rewrite toy_read2, toy_read3.
  eexists _, _, _, _. reflexivity.
Qed.

Lemma toy_strip : Dataset.strip "A" <> EmptyString.
Proof. vm_compute. discriminate. Qed.

(** The toy run with the mocked sampler, at any temperature. *)
Lemma toy_run (temperature : R) :
  temperature <> 0 ->
  exists probabilities,
    generate_text stable_sort Toy.always_eot Toy.tokenizer Toy.model Toy.params temperature 0.9
                  "A" tt [] =
      (Ok ("A"%string, [0%Z], tt),
       [EvPrint "Encoded input ids"; EvForward [[0%Z]] None; EvPrint "Mask is None";
        EvAttention None; EvSample probabilities;
        EvPrint "End of sequence token reached."; EvPrint "Generated text"]).
Proof.
  intros Hnz.
  destruct (toy_forward ([] ++ [EvPrint "Encoded input ids"]))
    as (l0 & l1 & l2 & logf & Hf).
  destruct (top_p_filtering_total stable_sort stable_sort_descending
              (map (fun x => x / temperature) [l0; l1; l2]) 0.9)
    as [filtered Hfiltered]; [done|].
  exists (softmax_filtered filtered).
  by rewrite (generate_text_eot_run stable_sort Toy.always_eot Toy.tokenizer Toy.model
               Toy.params temperature 0.9 "A" tt tt [] [0%Z] _ _ _ _ _ filtered "A" 3
               Hnz toy_strip eq_refl ltac:(done) eq_refl Hf eq_refl eq_refl Hfiltered
               eq_refl eq_refl).
Qed.

End ToyFacts.

(** ** The claims about generation *)

Section GenerationClaims.
Import Torch Model Predict.
Local Open Scope R_scope.

(** C1, as amended. When the token drawn at the first step is the
    end-of-text token, the loop stops after that one step (one forward
    pass, one draw) and the sequence that is decoded and returned is the
    encoded prompt alone: the end-of-text token is not appended. A token
    is drawn only at a temperature other than zero; at temperature zero
    the same call raises in its first step, before any draw. *)
Theorem generate_text_stops_at_eot (sort : list R -> list (nat * R)) {RNG : Type}
    (categorical_sample : RNG -> list R -> Z * RNG)
    (tokenizer : Tokenizer) (model : GPTModel) (s : store) (temperature top_p : R)
    (input_text : string) (g g' : RNG) (log : list event) (prompt : list Z)
    (outputs : tensor3) (logf : list event) (o : list (list R)) (rest : tensor3)
    (row : list R) (filtered : list logit) (generated_text : string) (n : nat) :
  Dataset.strip input_text <> EmptyString ->
  encode tokenizer input_text = Ok prompt -> prompt <> [] ->
  sequence_length model = S n ->
  forward model s [prompt] None (log ++ [EvPrint "Encoded input ids"])
    = (Ok outputs, logf) ->
  outputs = o :: rest -> last o = Some row ->
  top_p_filtering sort (map (fun x => x / temperature) row) top_p = Ok filtered ->
  categorical_sample g (softmax_filtered filtered) = (eot_token tokenizer, g') ->
  decode tokenizer prompt = Ok generated_text ->
  (temperature <> 0 ->
   generate_text sort categorical_sample tokenizer model s temperature top_p
                 input_text g log =
     (Ok (generated_text, prompt, g'),
      log ++ [EvPrint "Encoded input ids"; EvForward [prompt] None;
              EvPrint "Mask is None"] ++
      replicate (length (layers model)) (EvAttention None) ++
      [EvSample (softmax_filtered filtered);
       EvPrint "End of sequence token reached.";
       EvPrint "Generated text"])) /\
  (temperature = 0 ->
   exists e new,
     generate_text sort categorical_sample tokenizer model s temperature top_p
                   input_text g log = (Raise e, log ++ new) /\
     Forall (fun ev => forall p, ev <> EvSample p) new).
Proof.
  intros Hstrip Henc Hne Hlen Hf Hout Hrow Hfilter Hsample Hdec. split.
  - intros Hnz. by eapply generate_text_eot_run.
  - intros Hzero. by eapply generate_text_zero.
Qed.

(** The amended claim on the toy instance: prompt "A", token 2 drawn. *)
Lemma generate_text_stops_at_eot_witness :
  exists probabilities,
    generate_text stable_sort Toy.always_eot Toy.tokenizer Toy.model Toy.params 1 0.9
                  "A" tt [] =
      (Ok ("A"%string, [0%Z], tt),
       [EvPrint "Encoded input ids"; EvForward [[0%Z]] None; EvPrint "Mask is None";
        EvAttention None; EvSample probabilities;
        EvPrint "End of sequence token reached."; EvPrint "Generated text"]).
Proof.
  destruct (toy_forward ([] ++ [EvPrint "Encoded input ids"]))
    as (l0 & l1 & l2 & logf & Hf).
  destruct (top_p_filtering_total stable_sort stable_sort_descending
              (map (fun x => x / 1) [l0; l1; l2]) 0.9)
    as [filtered Hfiltered]; [done|].
  exists (softmax_filtered filtered).
  exact (proj1 (generate_text_stops_at_eot stable_sort Toy.always_eot Toy.tokenizer
                  Toy.model Toy.params 1 0.9 "A" tt tt [] [0%Z] _ _ _ _ _ filtered
                  "A" 3 toy_strip eq_refl ltac:(done) eq_refl Hf eq_refl eq_refl
                  Hfiltered eq_refl eq_refl)
               ltac:(lra)).
Defined.

(** C1 as stated fails on the toy instance: the returned sequence is the
    prompt [0], not the prompt followed by the end-of-text token. *)
Lemma generate_text_toy_omits_eot :
  (generate_text stable_sort Toy.always_eot Toy.tokenizer Toy.model Toy.params 1 0.9
                 "A" tt []).1
    = Ok ("A"%string, [0%Z], tt) /\
  [0%Z] <> [0%Z] ++ [eot_token Toy.tokenizer].
Proof.
  split; [|done]. destruct (toy_run 1 ltac:(lra)) as [probabilities ->]. done.
Qed.




(** C10. During a generation call every call of the model is made without
    mask and every attention call, in every layer and at every step,
    receives no mask; a forward pass without mask logs the call, the line
    it prints, and one unmasked attention call per layer. *)
Theorem generate_text_no_attention_mask :
  (forall (sort : list R -> list (nat * R))
          (RNG : Type) (categorical_sample : RNG -> list R -> Z * RNG)
          (tokenizer : Tokenizer) (model : GPTModel) (s : store)
          (temperature top_p : R) (input_text : string) (g : RNG),
     emits unmasked
       (generate_text sort categorical_sample tokenizer model s temperature top_p
                      input_text g)) /\
  (forall (self : GPTModel) (s : store) (x : list (list Z)) (log : list event)
          (out : tensor3) (log' : list event),
     forward self s x None log = (Ok out, log') ->
     log' = log ++ EvForward x None :: EvPrint "Mask is None" ::
                   replicate (length (layers self)) (EvAttention None)).
Proof.
  split.
  - intros. apply generate_text_unmasked.
  - intros. by eapply forward_unmasked_log.
Qed.

(** The log of the toy model's forward pass. *)
Lemma generate_text_no_attention_mask_witness :
  exists out,
    forward Toy.model Toy.params [[0%Z]] None [] =
      (Ok out, [EvForward [[0%Z]] None; EvPrint "Mask is None"; EvAttention None]).
Proof.
  destruct (toy_forward []) as (l0 & l1 & l2 & logf & Hf).
  exists [[[l0; l1; l2]]]. rewrite Hf. f_equal.
  exact (proj2 generate_text_no_attention_mask _ _ _ _ _ _ Hf).
Defined.

End GenerationClaims.

(** * Further properties of the code *)

(** ** Dataset items *)

Section ItemFacts.
Import Dataset.

Lemma long_tensor_inv (l l' : list Z) : long_tensor l = Ok l' -> l' = l.
Proof. unfold long_tensor. destruct (forallb is_int64 l); congruence. Qed.

Lemma getitem_inv ds idx inp tgt mask :
  getitem ds idx = Ok (inp, tgt, mask) ->
  exists line raw,
    read_line ds idx = Ok line /\ parse_line line = Ok raw /\
    inp = removelast (pad_or_truncate ds raw) /\
    tgt = tail (pad_or_truncate ds raw) /\
    mask = removelast (attention_mask_of ds (pad_or_truncate ds raw)).
Proof.
  unfold getitem. destruct (read_line ds idx) as [line|e]; [|done]. cbn [rbind].
  destruct (parse_line line) as [raw|e] eqn:Hp; [|done]. cbn [rbind].
  destruct (long_tensor (removelast _)) as [inp'|e] eqn:Hi; [|done]. cbn [rbind].
  destruct (long_tensor (tail _)) as [tgt'|e] eqn:Ht; [|done]. cbn [rbind].
  intros [= <- <- <-]. apply long_tensor_inv in Hi, Ht. by exists line, raw.
Qed.

(** Every item has the three lengths [S - 1]; the mask is 0 at the padding
    tokens of the input and 1 elsewhere; the target is the input shifted by
    one position. *)
Theorem getitem_item_shape ds idx inp tgt mask :
  getitem ds idx = Ok (inp, tgt, mask) ->
  length inp = sequence_length ds - 1 /\
  length tgt = sequence_length ds - 1 /\
  length mask = sequence_length ds - 1 /\
  (forall i t, inp !! i = Some t ->
     mask !! i = Some (if decide (t = padding_token ds) then 0%Z else 1%Z)) /\
  (forall i t, inp !! S i = Some t -> tgt !! i = Some t).
Proof.
  intros (line & raw & _ & _ & -> & -> & ->)%getitem_inv.
  pose proof (pad_or_truncate_length ds raw) as Hlen.
  set (tokens := pad_or_truncate ds raw) in *.
  split; [by rewrite removelast_take, length_take, Hlen; lia|].
  split; [destruct tokens; simpl in *; lia|].
  split.
  { unfold attention_mask_of. rewrite removelast_map, length_map.
    by rewrite removelast_take, length_take, Hlen; lia. }
  split.
  - intros i t Hi. unfold attention_mask_of. rewrite removelast_map.
    rewrite list_lookup_fmap, Hi. simpl. f_equal.
    destruct (decide (t = padding_token ds)) as [->|Hne].
    + by rewrite bool_decide_eq_false_2 by (intros H; by apply H).
    + by rewrite bool_decide_eq_true_2.
  - intros i t Hi. rewrite removelast_take in Hi.
    apply lookup_take_Some in Hi as [Hi _]. by destruct tokens.
Qed.

Lemma getitem_item_shape_witness :
  length [1; 2; 3]%Z = sequence_length example_dataset - 1 /\
  length [2; 3; 4]%Z = sequence_length example_dataset - 1 /\
  length [1; 1; 1]%Z = sequence_length example_dataset - 1 /\
  (forall i t, [1; 2; 3]%Z !! i = Some t ->
     [1; 1; 1]%Z !! i =
       Some (if decide (t = padding_token example_dataset) then 0%Z else 1%Z)) /\
  (forall i t, [1; 2; 3]%Z !! S i = Some t -> [2; 3; 4]%Z !! i = Some t).
Proof.
  apply (getitem_item_shape example_dataset 0). vm_compute. reflexivity.
Defined.

Lemma offsets_from_length (offset : nat) (lines : list string) :
  length (offsets_from offset lines) = length lines.
Proof.
  revert offset. induction lines as [|l lines IH]; intros offset; simpl; [done|].
  by rewrite IH.
Qed.

(** The offset recorded for a line is the number of characters of the
    lines before it. *)
Lemma offsets_from_lookup (offset : nat) (lines : list string) (idx : nat) :
  idx < length lines ->
  offsets_from offset lines !! idx =
    Some (offset + sum_list_with String.length (take idx lines)).
Proof.
  revert offset idx. induction lines as [|l lines IH]; intros offset idx Hidx;
    simpl in Hidx; [lia|].
  destruct idx as [|idx]; simpl; [f_equal; lia|].
  rewrite IH by lia. f_equal. lia.
Qed.

(** The two modes of the dataset. They have the same length, the number
    of lines, and an index at or beyond it raises [IndexError] in both. The
    item of the lazy mode is built from whatever the file holds at the
    offset recorded for the index, the number of characters of the lines
    before it: it is the item of the eager mode when that is where the line
    starts. *)
Theorem getitem_modes_and_bounds (lines : list string)
    (io : nat -> result string) (S : nat) (pad : Z) :
  let dataset := fun file mode =>
    {| file_lines := file; seek_readline := io; sequence_length := S;
       padding_token := pad; in_memory := mode |} in
  let offset := fun idx => sum_list_with String.length (take idx lines) in
  Loader.len (dataset lines true) = length lines /\
  Loader.len (dataset lines false) = length lines /\
  (forall idx, length lines <= idx ->
     getitem (dataset lines true) idx = Raise IndexError /\
     getitem (dataset lines false) idx = Raise IndexError) /\
  (forall idx read, idx < length lines -> io (offset idx) = Ok read ->
     getitem (dataset lines false) idx = getitem (dataset [read] true) 0) /\
  (forall idx line, lines !! idx = Some line -> io (offset idx) = Ok line ->
     getitem (dataset lines false) idx = getitem (dataset lines true) idx).
Proof.
  intros dataset offset.
  assert (Hlazy : forall idx read, idx < length lines -> io (offset idx) = Ok read ->
            read_line (dataset lines false) idx = Ok (strip read)).
  { intros idx read Hidx Hread. unfold read_line, line_offsets. simpl.
    rewrite offsets_from_lookup by done. simpl. fold (offset idx).
    by rewrite Hread. }
  split; [unfold Loader.len, data; simpl; apply length_map|].
  split; [unfold Loader.len, line_offsets; simpl; apply offsets_from_length|].
  split; [|split].
  - intros idx Hidx. unfold getitem, read_line, data, line_offsets. simpl.
    rewrite !(proj2 (lookup_ge_None _ _)); [done|..].
    + by rewrite offsets_from_length.
    + by rewrite length_map.
  - intros idx read Hidx Hread. unfold getitem.
    by rewrite (Hlazy idx read Hidx Hread).
  - intros idx line Hline Hread. unfold getitem.
    rewrite (Hlazy idx line (lookup_lt_Some _ _ _ Hline) Hread).
    unfold read_line, data. simpl.
    by rewrite list_lookup_fmap, Hline.
Qed.

(** A file of two lines that end in a line feed: the offset recorded for
    the second line is 6, where that line starts. *)
Lemma getitem_modes_and_bounds_witness :
  let lines := ["1 2 3" ++ String "010"%char ""; "4 5 6" ++ String "010"%char ""]%string in
  let io := fun offset : nat =>
    if (offset =? 6)%nat then Ok (nth 1 lines ""%string) else Ok (nth 0 lines ""%string) in
  getitem {| file_lines := lines; seek_readline := io; sequence_length := 4;
             padding_token := 0; in_memory := false |} 1 =
  getitem {| file_lines := lines; seek_readline := io; sequence_length := 4;
             padding_token := 0; in_memory := true |} 1.
Proof.
  intros lines io.
  apply (proj2 (proj2 (proj2 (proj2 (getitem_modes_and_bounds lines io 4 0))))
           1 (nth 1 lines ""%string));
    reflexivity.
Defined.

End ItemFacts.

(** ** Splitting and normalising lines *)

Section SplitFacts.
Import Dataset Encode.

Lemma split_from_spaces (cur sp : list ascii) :
  Forall (fun c => is_space c = true) sp ->
  split_from cur sp =
    match cur with [] => [] | _ => [string_of_list_ascii cur] end.
Proof.
  intros Hsp. revert cur. induction Hsp as [|c sp Hc _ IH]; intros cur; [done|].
  simpl. rewrite Hc. destruct cur; [apply IH|]. by rewrite IH.
Qed.

Lemma split_from_app_spaces (cur s sp : list ascii) :
  Forall (fun c => is_space c = true) sp ->
  split_from cur (s ++ sp) = split_from cur s.
Proof.
  intros Hsp. revert cur. induction s as [|c s IH]; intros cur.
  - by rewrite split_from_spaces.
  - simpl. destruct (is_space c); [|apply IH]. destruct cur; by rewrite IH.
Qed.

Lemma split_from_lstrip (s : list ascii) :
  split_from [] (lstrip s) = split_from [] s.
Proof.
  induction s as [|c s IH]; [done|]. simpl.
  destruct (is_space c) eqn:Hc; [done|]. simpl. by rewrite Hc.
Qed.

Lemma lstrip_decompose (s : list ascii) :
  exists sp, s = sp ++ lstrip s /\ Forall (fun c => is_space c = true) sp.
Proof.
  induction s as [|c s (sp & Hs & Hsp)]; [by exists []|]. simpl.
  destruct (is_space c) eqn:Hc.
  - exists (c :: sp). split; [by rewrite <- app_comm_cons, <- Hs|by constructor].
  - by exists [].
Qed.

Lemma split_from_rstrip (s : list ascii) :
  split_from [] (rev (lstrip (rev s))) = split_from [] s.
Proof.
  destruct (lstrip_decompose (rev s)) as (sp & Hs & Hsp).
  apply (f_equal (fun l => rev l)) in Hs. rewrite rev_involutive, rev_app_distr in Hs.
  rewrite Hs at 2. rewrite split_from_app_spaces; [done|].
  apply Forall_forall. intros c Hc%list_elem_of_In%in_rev%list_elem_of_In.
  by apply (proj1 (Forall_forall _ _) Hsp).
Qed.

(** Stripping a line does not change its words. *)
Lemma split_strip (line : string) : split (strip line) = split line.
Proof.
  unfold split, strip. rewrite list_ascii_of_string_of_list_ascii.
  by rewrite split_from_rstrip, split_from_lstrip.
Qed.

Lemma split_blank (line : string) :
  Forall (fun c => is_space c = true) (list_ascii_of_string line) ->
  split line = [].
Proof. intros H. unfold split. by rewrite split_from_spaces. Qed.

(** Every word is a non-empty run of characters that are not spaces. *)
Lemma split_from_words (cur s : list ascii) :
  Forall (fun c => is_space c = false) cur ->
  Forall (fun w => list_ascii_of_string w <> [] /\
                   Forall (fun c => is_space c = false) (list_ascii_of_string w))
         (split_from cur s).
Proof.
  revert cur. induction s as [|c s IH]; intros cur Hcur; simpl.
  - destruct cur as [|c0 cur]; [constructor|]. constructor; [|constructor].
    by rewrite list_ascii_of_string_of_list_ascii.
  - destruct (is_space c) eqn:Hc.
    + destruct cur as [|c0 cur]; [by apply IH|]. constructor; [|by apply IH].
      by rewrite list_ascii_of_string_of_list_ascii.
    + apply IH. apply Forall_app. split; [done|]. by constructor.
Qed.

Lemma split_from_word (cur w r : list ascii) :
  Forall (fun c => is_space c = false) w ->
  split_from cur (w ++ r) = split_from (cur ++ w) r.
Proof.
  intros Hw. revert cur. induction Hw as [|c w Hc _ IH]; intros cur.
  - by rewrite app_nil_r.
  - simpl. rewrite Hc, IH. by rewrite <- app_assoc.
Qed.

Lemma list_ascii_of_string_append (a b : string) :
  list_ascii_of_string (String.append a b) =
    list_ascii_of_string a ++ list_ascii_of_string b.
Proof. induction a as [|c a IH]; simpl; [done|]. by rewrite IH. Qed.

Lemma split_join_spaces (words : list string) :
  Forall (fun w => list_ascii_of_string w <> [] /\
                   Forall (fun c => is_space c = false) (list_ascii_of_string w))
         words ->
  split (join_spaces words) = words.
Proof.
  induction 1 as [|w words [Hne Hw] Hwords IH]; [done|].
  unfold split in *. destruct words as [|w2 words].
  - simpl. rewrite <- (app_nil_r (list_ascii_of_string w)).
    rewrite split_from_word by done. simpl.
    destruct (list_ascii_of_string w) eqn:E; [done|].
    by rewrite <- E, string_of_list_ascii_of_string.
  - change (join_spaces (w :: w2 :: words))
      with (String.append w (String " " (join_spaces (w2 :: words)))).
    rewrite list_ascii_of_string_append. rewrite split_from_word by done.
    simpl list_ascii_of_string. cbn [split_from app].
    change (is_space " ") with true. cbv iota.
    destruct (list_ascii_of_string w) eqn:E; [done|].
    rewrite <- E, string_of_list_ascii_of_string. f_equal. exact IH.
Qed.

(** The rewriting of a line by [format_and_split_data] keeps its tokens:
    what the dataset, or [find_vocab_size], parses from the rewritten line
    is what it parses from the original one; rewriting twice changes
    nothing more. *)
Theorem normalise_preserves_tokens (line : string) :
  parse_line (strip (normalise line)) = parse_line (strip line) /\
  normalise (normalise line) = normalise line.
Proof.
  assert (Hsplit : split (strip (normalise line)) = split (strip line)).
  { rewrite split_strip. unfold normalise. apply split_join_spaces.
    unfold split. by apply split_from_words. }
  split; [unfold parse_line; by rewrite Hsplit|].
  unfold normalise at 1. by rewrite Hsplit.
Qed.

(** A line of blanks gives an item made of padding only, with a mask that
    selects nothing. *)
Theorem getitem_blank_line ds idx line :
  read_line ds idx = Ok line ->
  Forall (fun c => is_space c = true) (list_ascii_of_string line) ->
  is_int64 (padding_token ds) = true ->
  getitem ds idx =
    Ok (replicate (sequence_length ds - 1) (padding_token ds),
        replicate (sequence_length ds - 1) (padding_token ds),
        replicate (sequence_length ds - 1) 0%Z).
Proof.
  intros Hline Hblank Hpad. unfold getitem. rewrite Hline. cbn [rbind].
  unfold parse_line. rewrite split_blank by done. cbn [rmap rbind].
  assert (Htok : pad_or_truncate ds [] =
                 replicate (sequence_length ds) (padding_token ds)).
  { unfold pad_or_truncate. simpl. by destruct (sequence_length ds). }
  rewrite Htok.
  assert (Hrl : forall (A : Type) n (x : A),
            removelast (replicate n x) = replicate (n - 1) x).
  { intros A n x. rewrite removelast_take, length_replicate, take_replicate.
    f_equal. lia. }
  assert (Htl : forall (A : Type) n (x : A), tail (replicate n x) = replicate (n - 1) x).
  { intros A [|n] x; simpl; [done|]. by rewrite Nat.sub_0_r. }
  rewrite Hrl, Htl.
  rewrite !long_tensor_ok by (apply Forall_replicate; done). cbn [rbind].
  do 2 f_equal. unfold attention_mask_of.
  rewrite fmap_replicate, Hrl. f_equal.
  by rewrite bool_decide_eq_false_2 by (intros H; by apply H).
Qed.

Lemma getitem_blank_line_witness :
  getitem {| file_lines := ["   "%string]; seek_readline := fun _ => Ok "   "%string;
             sequence_length := 3; padding_token := 0; in_memory := true |} 0 =
    Ok ([0; 0], [0; 0], [0; 0])%Z.
Proof.
  apply (getitem_blank_line
           {| file_lines := ["   "%string]; seek_readline := fun _ => Ok "   "%string;
              sequence_length := 3; padding_token := 0; in_memory := true |}
           0 ""%string).
  - vm_compute. reflexivity.
  - constructor.
  - vm_compute. reflexivity.
Defined.

End SplitFacts.

(** ** Splitting the corpus and sizing the vocabulary *)

Section EncodeFacts.
Import Dataset Encode.
Local Open Scope R_scope.

Lemma int_of_float_nonneg (x : R) : 0 <= x -> int_of_float x = Int_part x.
Proof. intros H. unfold int_of_float. by rewrite bool_decide_eq_true_2. Qed.

Lemma Int_part_bounds (x : R) (lo hi : Z) :
  IZR lo <= x -> x < IZR hi + 1 -> (lo <= Int_part x <= hi)%Z.
Proof.
  intros Hlo Hhi. destruct (base_Int_part x) as [H1 H2]. split.
  - assert (IZR lo < IZR (Int_part x) + 1) as H by lra.
    rewrite <- plus_IZR in H. apply lt_IZR in H. lia.
  - assert (IZR (Int_part x) < IZR hi + 1) as H by lra.
    rewrite <- plus_IZR in H. apply lt_IZR in H. lia.
Qed.

(** The split never loses or repeats a line. With the floating-point
    product of the number of lines and the ratio strictly between -1 and
    1, the size is 0 and every line goes to the validation list, the
    training list being empty; with a product from 1 up to the number of
    lines, the validation list gets that many lines, rounded down, and the
    training list the others. *)
Theorem format_and_split_data_partition (float_mul : nat -> R -> R)
    (lines : list string) (val_ratio : R) :
  let n := length lines in
  let product := float_mul n val_ratio in
  let train := (format_and_split_data float_mul lines val_ratio).1 in
  let val := (format_and_split_data float_mul lines val_ratio).2 in
  train ++ val = map normalise lines /\
  (-1 < product < 1 -> train = [] /\ val = map normalise lines) /\
  (1 <= product -> product <= INR n ->
   length val = Z.to_nat (Int_part product) /\
   (1 <= length val <= n)%nat /\
   length train = (n - length val)%nat).
Proof.
  intros n product train val.
  unfold train, val, format_and_split_data. cbn [fst snd].
  rewrite length_map. fold n product.
  unfold slice_to, slice_from. rewrite length_map. fold n.
  split; [apply take_drop|]. split.
  - intros Hx.
    assert (int_of_float product = 0%Z) as ->.
    { unfold int_of_float. destruct (bool_decide (0 <= product)) eqn:Hsign.
      - apply bool_decide_eq_true in Hsign.
        destruct (Int_part_bounds product 0 0); [lra|lra|lia].
      - apply bool_decide_eq_false in Hsign.
        destruct (Int_part_bounds (- product) 0 0); [lra|lra|lia]. }
    unfold slice_bound. simpl. by rewrite Z.min_l by lia.
  - intros Hx Hn. rewrite int_of_float_nonneg by lra.
    rewrite INR_IZR_INZ in Hn.
    pose proof (Int_part_bounds product 1 (Z.of_nat n) ltac:(lra) ltac:(lra)) as Hv.
    set (v := Int_part product) in *.
    unfold slice_bound. destruct (Z.ltb_spec (- v) 0); [|lia].
    rewrite length_drop, length_take, length_map. fold n. lia.
Qed.

(** Two lines at a ratio of a quarter: the product, one half, is exact. *)
Lemma format_and_split_data_partition_witness :
  (format_and_split_data (fun n x => INR n * x) ["1 2"%string; "3"%string] 0.25).1
    = [] /\
  (format_and_split_data (fun n x => INR n * x) ["1 2"%string; "3"%string] 0.25).2
    = map normalise ["1 2"%string; "3"%string].
Proof.
  apply (proj1 (proj2 (format_and_split_data_partition (fun n x => INR n * x)
                         ["1 2"%string; "3"%string] 0.25))).
  simpl. lra.
Defined.

Lemma foldl_max_spec (t : Z) (l : list Z) :
  foldl Z.max t l ∈ t :: l /\ Forall (fun x => (x <= foldl Z.max t l)%Z) (t :: l).
Proof.
  revert t. induction l as [|y l IH]; intros t; simpl.
  - split; [by left|]. constructor; [lia|constructor].
  - destruct (IH (Z.max t y)) as [Hin Hall]. split.
    + apply elem_of_cons in Hin as [Hin|Hin].
      * rewrite Hin. destruct (Z.max_spec t y) as [[_ ->]|[_ ->]];
          [right; by left|by left].
      * right. by right.
    + inversion Hall as [|? ? Hm Hl]; subst.
      constructor; [lia|]. constructor; [lia|done].
Qed.

Lemma py_max_spec (tokens : list Z) (m : Z) :
  py_max tokens = Ok m ->
  m ∈ tokens /\ Forall (fun x => (x <= m)%Z) tokens.
Proof.
  destruct tokens as [|t l]; [done|]. simpl. intros [= <-]. apply foldl_max_spec.
Qed.

Lemma find_vocab_loop_spec (lines : list string) (m0 m : Z) :
  find_vocab_loop m0 lines = Ok m ->
  (m0 <= m)%Z /\
  Forall (fun line => exists tokens,
            parse_line (strip line) = Ok tokens /\ tokens <> [] /\
            Forall (fun t => (t <= m)%Z) tokens) lines /\
  (m = m0 \/ exists line tokens,
     line ∈ lines /\ parse_line (strip line) = Ok tokens /\ m ∈ tokens).
Proof.
  revert m0. induction lines as [|line lines IH]; intros m0; simpl.
  - intros [= <-]. split; [lia|]. split; [constructor|by left].
  - destruct (parse_line (strip line)) as [tokens|e] eqn:Hp; [|done]. cbn [rbind].
    destruct (py_max tokens) as [mx|e] eqn:Hmx; [|done]. cbn [rbind].
    intros (Hle & Hall & Hor)%IH.
    destruct (py_max_spec _ _ Hmx) as [Hin Hmax].
    split; [lia|]. split.
    + constructor; [|done]. exists tokens. split; [done|].
      split; [by destruct tokens|].
      eapply Forall_impl; [exact Hmax|]. intros t Ht. simpl in Ht. lia.
    + destruct Hor as [->|(l' & tk & Hl' & Hp' & Hm)].
      * destruct (Z.max_spec m0 mx) as [[_ ->]|[_ ->]]; [|by left].
        right. exists line, tokens. split; [by left|done].
      * right. exists l', tk. split; [by right|done].
Qed.

(** The size returned by [find_vocab_size] is at least one and exceeds
    every token of the file; it is one, or the successor of a token of the
    file; and every line of the file holds at least one token. *)
Theorem find_vocab_size_bounds (lines : list string) (v : Z) :
  find_vocab_size lines = Ok v ->
  (1 <= v)%Z /\
  (forall line, line ∈ lines ->
     exists tokens, parse_line (strip line) = Ok tokens /\ tokens <> [] /\
                    forall t, t ∈ tokens -> (t < v)%Z) /\
  (v = 1%Z \/ exists line tokens,
     line ∈ lines /\ parse_line (strip line) = Ok tokens /\ (v - 1)%Z ∈ tokens).
Proof.
  unfold find_vocab_size.
  destruct (find_vocab_loop 0 lines) as [m|e] eqn:Hloop; [|done]. cbn [rbind].
  intros [= <-]. destruct (find_vocab_loop_spec _ _ _ Hloop) as (Hle & Hall & Hor).
  split; [lia|]. split.
  - intros line Hline.
    destruct (proj1 (Forall_forall _ _) Hall line Hline) as (tokens & Hp & Hne & Hmax).
    exists tokens. split; [done|]. split; [done|].
    intros t Ht. pose proof (proj1 (Forall_forall _ _) Hmax t Ht) as H. simpl in H. lia.
  - destruct Hor as [->|(line & tokens & Hl & Hp & Hm)]; [by left|].
    right. exists line, tokens. split; [done|]. split; [done|].
    by replace (m + 1 - 1)%Z with m by lia.
Qed.

Lemma find_vocab_size_bounds_witness :
  (1 <= 8)%Z /\
  (forall line, line ∈ ["1 2 3"%string; "7 5"%string] ->
     exists tokens, parse_line (strip line) = Ok tokens /\ tokens <> [] /\
                    forall t, t ∈ tokens -> (t < 8)%Z) /\
  (8%Z = 1%Z \/ exists line tokens,
     line ∈ ["1 2 3"%string; "7 5"%string] /\
     parse_line (strip line) = Ok tokens /\ (8 - 1)%Z ∈ tokens).
Proof.
  apply (find_vocab_size_bounds ["1 2 3"%string; "7 5"%string] 8).
  vm_compute. reflexivity.
Defined.

(** A blank line makes [find_vocab_size] fail: the maximum of no token is
    a [ValueError]. *)
Theorem find_vocab_size_blank_line (before after : list string) (blank : string) :
  Forall (fun line => exists tokens,
            parse_line (strip line) = Ok tokens /\ tokens <> []) before ->
  Forall (fun c => is_space c = true) (list_ascii_of_string blank) ->
  find_vocab_size (before ++ blank :: after) =
    Raise (ValueError "max() arg is an empty sequence").
Proof.
  intros Hbefore Hblank. unfold find_vocab_size.
  assert (Hloop : forall m0, find_vocab_loop m0 (before ++ blank :: after) =
                             Raise (ValueError "max() arg is an empty sequence"));
    [|by rewrite Hloop].
  induction Hbefore as [|line before (tokens & Hp & Hne) _ IH]; intros m0; simpl.
  - unfold parse_line. by rewrite split_strip, split_blank.
  - rewrite Hp. cbn [rbind]. destruct tokens as [|t tokens]; [done|].
    cbn [py_max rbind]. apply IH.
Qed.

Lemma find_vocab_size_blank_line_witness :
  find_vocab_size (["1 2 3"%string] ++ ""%string :: ["7 5"%string]) =
    Raise (ValueError "max() arg is an empty sequence").
Proof.
  apply (find_vocab_size_blank_line ["1 2 3"%string] ["7 5"%string] ""%string).
  - constructor; [|constructor]. exists [1; 2; 3]%Z. split; [|done].
    vm_compute. reflexivity.
  - constructor.
Defined.

End EncodeFacts.

(** ** Chunking the corpus *)

Section ChunkFacts.
Import Encode.

Lemma range_count_covers (n step : nat) :
  0 < step -> n <= range_count n step * step /\ (forall k, k < range_count n step -> k * step < n).
Proof.
  intros Hstep. unfold range_count.
  pose proof (Nat.div_mod_eq n step) as Hdm.
  pose proof (Nat.mod_upper_bound n step ltac:(lia)) as Hub.
  destruct (Nat.eqb_spec (n mod step) 0) as [H0|Hne].
  - split; [nia|]. intros k Hk. nia.
  - split; [nia|]. intros k Hk.
    assert (k <= n / step) by lia. nia.
Qed.

Lemma chunks_by_index_concat {A} (l : list A) (step m : nat) :
  length l <= m * step ->
  concat (map (fun k => take step (drop (k * step) l)) (seq 0 m)) = l.
Proof.
  revert l. induction m as [|m IH]; intros l Hlen.
  - simpl in *. destruct l; [done|simpl in Hlen; lia].
  - rewrite <- cons_seq, <- fmap_S_seq. cbn [map concat]. rewrite drop_0.
    change (map ?f (S <$> ?l)) with (map f (map S l)). rewrite map_map.
    rewrite (map_ext _ (fun k => take step (drop (k * step) (drop step l)))).
    + rewrite IH; [apply take_drop|]. rewrite length_drop. lia.
    + intros k. by rewrite drop_drop.
Qed.

(** Chunking with a positive window cuts the text into consecutive
    pieces: their concatenation is the text, no piece is empty or longer
    than the window, and every piece but the last fills the window. A
    window of zero is refused. *)
Theorem restructure_chunks_cover {A} (all_text : list A) (context_window : nat) :
  (context_window = 0 ->
   restructure_chunks all_text context_window =
     Raise (ValueError "range() arg 3 must not be zero")) /\
  (0 < context_window ->
   exists chunks,
     restructure_chunks all_text context_window = Ok chunks /\
     concat chunks = all_text /\
     Forall (fun c => 0 < length c <= context_window) chunks /\
     (forall k c, chunks !! k = Some c -> S k < length chunks ->
        length c = context_window)).
Proof.
  split; [by intros ->|]. intros Hcw. unfold restructure_chunks.
  destruct (Nat.eqb_spec context_window 0); [lia|].
  destruct (range_count_covers (length all_text) context_window Hcw) as [Hcover Hlt].
  eexists. split; [reflexivity|]. split; [by apply chunks_by_index_concat|]. split.
  - apply Forall_forall. intros c [k [-> Hk]]%list_elem_of_fmap.
    apply elem_of_seq in Hk. rewrite length_take, length_drop.
    pose proof (Hlt k ltac:(lia)). lia.
  - intros k c Hk Hnext. rewrite length_map, length_seq in Hnext.
    rewrite list_lookup_fmap in Hk.
    rewrite lookup_seq_lt in Hk by lia. injection Hk as <-.
    rewrite length_take, length_drop. pose proof (Hlt (S k) Hnext). simpl in *. lia.
Qed.

Lemma restructure_chunks_cover_witness :
  exists chunks,
    restructure_chunks [1; 2; 3; 4; 5; 6; 7] 3 = Ok chunks /\
    concat chunks = [1; 2; 3; 4; 5; 6; 7] /\
    Forall (fun c => 0 < length c <= 3) chunks /\
    (forall k c, chunks !! k = Some c -> S k < length chunks -> length c = 3).
Proof.
  apply (proj2 (restructure_chunks_cover [1; 2; 3; 4; 5; 6; 7] 3)). lia.
Defined.

End ChunkFacts.

(** ** Collating a batch *)

Section CollateFacts.
Import Dataset Loader.

Lemma foldr_max_ge (lens : list nat) (n : nat) :
  n ∈ lens -> n <= foldr Nat.max 0 lens.
Proof.
  induction lens as [|m lens IH]; [by intros ?%elem_of_nil|].
  intros [->|Hin]%elem_of_cons; simpl; [lia|]. specialize (IH Hin). lia.
Qed.


(** Padding makes the batch rectangular and only appends: every row ends
    up with the length of the longest sequence and starts with the sequence
    it comes from, followed by padding values. *)
Lemma pad_sequence_rectangular (v : Z) (sequences : list (list Z)) :
  let width := foldr Nat.max 0 (map length sequences) in
  length (pad_sequence v sequences) = length sequences /\
  forall i s, sequences !! i = Some s ->
    exists row,
      pad_sequence v sequences !! i = Some row /\
      length row = width /\
      row = s ++ replicate (width - length s) v.
Proof.
  intros width. unfold pad_sequence. fold width.
  split; [apply length_map|]. intros i s Hs. eexists.
  split; [by rewrite list_lookup_fmap, Hs|]. split; [|done].
  rewrite length_app, length_replicate.
  assert (length s <= width); [|lia].
  apply foldr_max_ge, list_elem_of_fmap. exists s.
  split; [done|]. by eapply list_elem_of_lookup_2.
Qed.




Lemma pad_sequence_rectangular_witness :
  exists row,
    pad_sequence 0 [[1; 2]; [4]]%Z !! 1 = Some row /\
    length row = 2 /\ row = [4]%Z ++ replicate (2 - 1) 0%Z.
Proof.
  apply (proj2 (pad_sequence_rectangular 0 [[1; 2]; [4]]%Z) 1 [4]%Z). reflexivity.
Defined.

End CollateFacts.

(** ** Choosing the model version *)

Section VersionFacts.
Import Dataset Versions.

Lemma rmap_Forall2 {A B} (f : A -> result B) (l : list A) (l' : list B) :
  rmap f l = Ok l' -> Forall2 (fun a b => f a = Ok b) l l'.
Proof.
  revert l'. induction l as [|a l IH]; intros l'; simpl.
  - intros [= <-]. constructor.
  - destruct (f a) as [b|e] eqn:Hb; [|done]. cbn [rbind].
    destruct (rmap f l) as [bs|e]; [|done]. cbn [rbind].
    intros [= <-]. constructor; [done|]. by apply IH.
Qed.

Lemma insert_by_key_perm (p : Z * string) (l : list (Z * string)) :
  insert_by_key p l ≡ₚ p :: l.
Proof.
  induction l as [|q l IH]; simpl; [done|].
  destruct (q.1 <=? p.1)%Z; [done|]. rewrite IH. apply Permutation_swap.
Qed.

Lemma sort_by_key_perm (l : list (Z * string)) : sort_by_key l ≡ₚ l.
Proof.
  unfold sort_by_key. induction l as [|p l IH]; simpl; [done|].
  by rewrite insert_by_key_perm, IH.
Qed.

Lemma insert_by_key_sorted (p : Z * string) (l : list (Z * string)) :
  StronglySorted (fun a b => (b.1 <= a.1)%Z) l ->
  StronglySorted (fun a b => (b.1 <= a.1)%Z) (insert_by_key p l).
Proof.
  induction 1 as [|q l Hs IH Hq]; simpl; [by repeat constructor|].
  destruct (Z.leb_spec q.1 p.1).
  - constructor; [by constructor|]. constructor; [done|].
    eapply Forall_impl; [exact Hq|]. intros r Hr. simpl in *. lia.
  - constructor; [done|]. rewrite insert_by_key_perm.
    constructor; [simpl; lia|done].
Qed.

Lemma sort_by_key_sorted (l : list (Z * string)) :
  StronglySorted (fun a b => (b.1 <= a.1)%Z) (sort_by_key l).
Proof.
  unfold sort_by_key. induction l as [|p l IH]; simpl; [constructor|].
  by apply insert_by_key_sorted.
Qed.

Lemma sort_by_key_head (l : list (Z * string)) p rest :
  sort_by_key l = p :: rest -> p ∈ l /\ forall q, q ∈ l -> (q.1 <= p.1)%Z.
Proof.
  intros Hsort. pose proof (sort_by_key_perm l) as Hperm.
  pose proof (sort_by_key_sorted l) as Hs. rewrite Hsort in Hperm, Hs.
  split; [rewrite <- Hperm; by left|].
  intros q Hq. rewrite <- Hperm in Hq.
  apply elem_of_cons in Hq as [->|Hq]; [lia|].
  apply StronglySorted_inv in Hs as [_ Hall].
  by apply (proj1 (Forall_forall _ _) Hall q).
Qed.

Lemma keyed_snd (v : string) (p : Z * string) : keyed v = Ok p -> p.2 = v.
Proof.
  unfold keyed. destruct (version_part v) as [part|e]; [|done]. cbn [rbind].
  destruct (py_int part) as [k|e]; [|done]. cbn [rbind]. by intros [= <-].
Qed.

(** The version that [predict_model] uses. A version passed by the caller
    is ignored and replaced by 12. Without one, a listing without version
    directory raises the exception; otherwise every version directory has a
    number and the one selected carries the highest. *)
Theorem select_version_spec :
  (forall listing requested,
     select_version listing (Some requested) = Selected "12") /\
  (forall listing,
     Forall (fun d => String.prefix "version_" d = false) listing ->
     select_version listing None = NoVersions) /\
  (forall listing part,
     select_version listing None = Selected part ->
     exists d k,
       d ∈ listing /\ String.prefix "version_" d = true /\
       keyed d = Ok (k, d) /\ version_part d = Ok part /\
       forall d', d' ∈ listing -> String.prefix "version_" d' = true ->
         exists k', keyed d' = Ok (k', d') /\ (k' <= k)%Z).
Proof.
  split; [done|]. split.
  - intros listing Hnone. unfold select_version.
    assert (filter (fun d => String.prefix "version_" d = true) listing = []) as ->;
      [|done].
    induction Hnone as [|d listing Hd _ IH]; [done|].
    rewrite filter_cons, decide_False by congruence. exact IH.
  - intros listing part. unfold select_version.
    set (versions := filter _ listing).
    assert (Hversions : forall d, d ∈ versions <->
              String.prefix "version_" d = true /\ d ∈ listing)
      by (intros d; unfold versions; by rewrite list_elem_of_filter).
    destruct versions as [|v0 versions'] eqn:Ev; [done|]. rewrite <- Ev in *.
    destruct (rmap keyed versions) as [keys|e] eqn:Hkeys; [|done].
    apply rmap_Forall2 in Hkeys.
    destruct (sort_by_key keys) as [|[k v] rest] eqn:Hsort; [done|].
    destruct (version_part v) as [part'|e] eqn:Hpart; [|done].
    intros [= <-]. apply sort_by_key_head in Hsort as [Hin Hmax].
    apply list_elem_of_lookup in Hin as [i Hi].
    destruct (Forall2_lookup_r _ _ _ _ _ Hkeys Hi) as (d & Hd & Hkd).
    pose proof (keyed_snd _ _ Hkd) as Hv. simpl in Hv. subst v.
    apply list_elem_of_lookup_2, Hversions in Hd as [Hpre Hdl].
    exists d, k. split; [done|]. split; [done|]. split; [done|]. split; [done|].
    intros d' Hd' Hpre'.
    assert (Hin' : d' ∈ versions) by (by apply Hversions).
    apply list_elem_of_lookup in Hin' as [j Hj].
    destruct (Forall2_lookup_l _ _ _ _ _ Hkeys Hj) as ([k' v'] & Hj' & Hkd').
    pose proof (keyed_snd _ _ Hkd') as Hv'. simpl in Hv'. subst v'.
    exists k'. split; [done|].
    apply (Hmax (k', d')). by eapply list_elem_of_lookup_2.
Qed.

Lemma select_version_spec_witness :
  exists d k,
    d ∈ ["version_3"; "notes"; "version_ 12"; "version_7"]%string /\
    String.prefix "version_" d = true /\
    keyed d = Ok (k, d) /\ version_part d = Ok " 12"%string /\
    forall d', d' ∈ ["version_3"; "notes"; "version_ 12"; "version_7"]%string ->
      String.prefix "version_" d' = true ->
      exists k', keyed d' = Ok (k', d') /\ (k' <= k)%Z.
Proof.
  apply (proj2 (proj2 select_version_spec)
           ["version_3"; "notes"; "version_ 12"; "version_7"]%string " 12"%string).
  vm_compute. reflexivity.
Defined.

End VersionFacts.

(** ** The schedule built by [configure_optimizers] *)

Section ScheduleFacts.
Import Model Scheduler Optim.
Local Open Scope R_scope.

Lemma get_lr_scale (self : WarmupCosineLR) (lrs : list R) :
  (0 <= last_epoch self)%Z -> get_lr self = Ok lrs ->
  exists lr_scale, 0 <= lr_scale <= 1 /\
    lrs = map (fun base_lr => base_lr * lr_scale + min_lr self) (base_lrs self).
Proof.
  intros Ht. unfold get_lr, true_div.
  destruct (Z.ltb_spec (last_epoch self) (warmup_steps self)) as [Hlt|Hge].
  - destruct (Z.eqb_spec (warmup_steps self) 0); [done|]. cbn [rbind].
    intros [= <-]. eexists. split; [|reflexivity].
    assert (0 <= IZR (last_epoch self)) by (by apply IZR_le).
    assert (IZR (last_epoch self) < IZR (warmup_steps self)) by (by apply IZR_lt).
    split.
    + apply Rmult_le_pos; [done|]. apply Rlt_le, Rinv_0_lt_compat. lra.
    + apply Rlt_le. apply (Rmult_lt_reg_r (IZR (warmup_steps self))); [lra|].
      unfold Rdiv. rewrite Rmult_assoc, Rinv_l by lra. lra.
  - destruct (Z.eqb_spec (total_steps self - warmup_steps self) 0); [done|].
    cbn [rbind]. intros [= <-]. eexists. split; [|reflexivity].
    pose proof (COS_bound (IZR (last_epoch self - warmup_steps self) /
                           IZR (total_steps self - warmup_steps self))). lra.
Qed.

(** Whenever [get_lr] returns from step 0 on, each rate lies between the
    minimum rate and the base rate plus the minimum rate (for a base rate
    that is not negative). *)
Theorem get_lr_within_bounds (self : WarmupCosineLR) (lrs : list R) :
  (0 <= last_epoch self)%Z -> get_lr self = Ok lrs ->
  Forall2 (fun base_lr lr =>
             0 <= base_lr -> min_lr self <= lr <= base_lr + min_lr self)
          (base_lrs self) lrs.
Proof.
  intros Ht (lr_scale & Hscale & ->)%get_lr_scale; [|done].
  apply Forall2_fmap_r, Forall_Forall2_diag, Forall_true.
  intros base_lr Hbase. nra.
Qed.

Lemma get_lr_within_bounds_witness :
  Forall2 (fun base_lr lr => 0 <= base_lr -> 0.000001 <= lr <= base_lr + 0.000001)
          [0.001] [0.001 * (0.5 * (1 + cos (IZR (2 - 1) / IZR (2 - 1)))) + 0.000001].
Proof.
  apply (get_lr_within_bounds schedule_at_end); [simpl; lia|].
  by rewrite get_lr_cosine_phase by (simpl; lia).
Defined.

Lemma int_of_float_tenth (t : Z) :
  (0 <= t)%Z -> Encode.int_of_float (0.1 * IZR t) = (t / 10)%Z.
Proof.
  intros Ht.
  assert (0 <= IZR t) by (by apply IZR_le).
  rewrite int_of_float_nonneg by lra.
  pose proof (Z.div_mod t 10 ltac:(lia)) as Hdm.
  pose proof (Z.mod_pos_bound t 10 ltac:(lia)) as [Hm0 Hm10].
  apply (f_equal IZR) in Hdm. rewrite plus_IZR, mult_IZR in Hdm.
  apply IZR_le in Hm0. apply IZR_lt in Hm10.
  pose proof (Int_part_bounds (0.1 * IZR t) (t / 10) (t / 10)
                ltac:(lra) ltac:(lra)). lia.
Qed.

Lemma get_lr_defined (self : WarmupCosineLR) :
  (0 <= last_epoch self)%Z -> (warmup_steps self < total_steps self)%Z ->
  exists lrs, get_lr self = Ok lrs.
Proof.
  intros Ht Hw. unfold get_lr, true_div.
  destruct (Z.ltb_spec (last_epoch self) (warmup_steps self)).
  - destruct (Z.eqb_spec (warmup_steps self) 0); [lia|]. by eexists.
  - destruct (Z.eqb_spec (total_steps self - warmup_steps self) 0); [lia|].
    by eexists.
Qed.

(** On a corpus with at least one line, with a positive batch size and a
    positive number of epochs, the schedule is built: the number of steps
    per epoch is the number of batches needed to cover the corpus, a tenth
    of the steps, rounded down, is warmup, and the rate is defined at
    every step from 0 on. *)
Theorem configure_optimizers_schedule (self : GPTModel) :
  (1 <= dataset_length self)%nat -> (1 <= batch_size self)%nat ->
  (1 <= max_epochs self)%nat ->
  exists sched n,
    configure_optimizers self = Ok sched /\
    ((n - 1) * batch_size self < dataset_length self <= n * batch_size self)%nat /\
    total_steps sched = Z.of_nat (max_epochs self * n) /\
    warmup_steps sched = (total_steps sched / 10)%Z /\
    last_epoch sched = 0%Z /\
    forall t, (0 <= t)%Z -> exists lrs, get_lr (at_step sched t) = Ok lrs.
Proof.
  intros Hd Hb He. unfold configure_optimizers.
  destruct (Nat.eqb_spec (batch_size self) 0) as [|Hb0]; [lia|].
  set (n := if negb (dataset_length self mod batch_size self =? 0)%nat
            then (dataset_length self / batch_size self + 1)%nat
            else (dataset_length self / batch_size self)%nat).
  assert (Hn : ((n - 1) * batch_size self < dataset_length self <= n * batch_size self)%nat).
  { pose proof (Nat.div_mod_eq (dataset_length self) (batch_size self)) as Hdm.
    pose proof (Nat.mod_upper_bound (dataset_length self) (batch_size self) ltac:(lia)).
    unfold n. destruct (Nat.eqb_spec (dataset_length self mod batch_size self) 0);
      simpl; [|nia].
    assert (1 <= dataset_length self / batch_size self)%nat by nia. nia. }
  set (total := Z.of_nat (max_epochs self * n)).
  assert (Htotal : (1 <= total)%Z) by (unfold total; nia).
  rewrite int_of_float_tenth by lia.
  assert (Hw : (total / 10 < total)%Z) by (apply Z.div_lt; lia).
  set (sched := {| warmup_steps := (total / 10)%Z; total_steps := total;
                   min_lr := 0.000001; base_lrs := [0.001]; last_epoch := 0 |}).
  destruct (get_lr_defined sched ltac:(simpl; lia) ltac:(simpl; lia)) as [lrs0 Hlrs0].
  rewrite Hlrs0. cbn [rbind]. exists sched, n.
  split; [done|]. split; [done|]. split; [done|]. split; [done|]. split; [done|].
  intros t Ht. by apply get_lr_defined.
Qed.

Lemma configure_optimizers_schedule_witness :
  exists sched n,
    configure_optimizers Toy.model = Ok sched /\
    ((n - 1) * 1 < 1 <= n * 1)%nat /\
    total_steps sched = Z.of_nat (1 * n) /\
    warmup_steps sched = (total_steps sched / 10)%Z /\
    last_epoch sched = 0%Z /\
    forall t, (0 <= t)%Z -> exists lrs, get_lr (at_step sched t) = Ok lrs.
Proof.
  apply (configure_optimizers_schedule Toy.model); simpl; lia.
Defined.

(** Without any step to take the schedule cannot be built: on an empty
    corpus, or with no epoch, the initial step of the scheduler divides by
    zero; so does the count of batches when the batch size is zero. *)
Theorem configure_optimizers_no_steps (self : GPTModel) :
  batch_size self = 0%nat \/ dataset_length self = 0%nat \/ max_epochs self = 0%nat ->
  configure_optimizers self = Raise ZeroDivisionError.
Proof.
  intros Hcase. unfold configure_optimizers.
  destruct (Nat.eqb_spec (batch_size self) 0) as [|Hb]; [done|].
  destruct Hcase as [?|Hcase]; [done|].
  set (n := if negb (dataset_length self mod batch_size self =? 0)%nat
            then (dataset_length self / batch_size self + 1)%nat
            else (dataset_length self / batch_size self)%nat).
  assert (Htotal : Z.of_nat (max_epochs self * n) = 0%Z).
  { destruct Hcase as [Hd|He]; [|rewrite He; lia].
    unfold n. rewrite Hd, Nat.Div0.mod_0_l, Nat.Div0.div_0_l. simpl. lia. }
  rewrite Htotal, int_of_float_tenth by lia.
  by unfold get_lr, true_div.
Qed.

Lemma configure_optimizers_no_steps_witness :
  configure_optimizers Examples.empty_corpus_model = Raise ZeroDivisionError.
Proof.
  apply (configure_optimizers_no_steps Examples.empty_corpus_model).
  right. by left.
Defined.

End ScheduleFacts.

(** ** Sizes the positional encoder refuses *)

Section EncoderErrors.
Import Util.

(** An embedding size of zero divides by zero, and every odd embedding
    size from 3 on ends in a shape error, whatever the length. *)
Theorem sinusoidal_positional_encoding_errors :
  (forall L, sinusoidal_positional_encoding 0 L = Raise ZeroDivisionError) /\
  (forall n L, 1 <= n ->
     sinusoidal_positional_encoding (2 * n + 1) L =
       Raise (RuntimeError "The expanded size of the tensor must match the existing size")).
Proof.
  split; [done|]. intros n L Hn. unfold sinusoidal_positional_encoding.
  destruct (Nat.eqb_spec (2 * n + 1) 0); [lia|]. cbn [rbind].
  unfold assign_columns, expand_columns, strided_columns, arange_even.
  rewrite !length_map, length_seq.
  replace (2 * n + 1 + 1) with (2 * (n + 1)) by lia.
  rewrite Nat.sub_0_r, Nat.div2_double, Nat.eqb_refl. cbn [rbind].
  replace (2 * (n + 1) - 1) with (2 * n + 1) by lia.
  rewrite div2_double_succ.
  destruct (Nat.eqb_spec (n + 1) n); [lia|].
  destruct (Nat.eqb_spec (n + 1) 1); [lia|]. done.
Qed.

Lemma sinusoidal_positional_encoding_errors_witness :
  sinusoidal_positional_encoding (2 * 2 + 1) 7 =
    Raise (RuntimeError "The expanded size of the tensor must match the existing size").
Proof.
  apply (proj2 sinusoidal_positional_encoding_errors 2 7). lia.
Defined.

End EncoderErrors.

(** ** Shapes and errors in the model *)

Section ModelErrors.
Import Torch Model.
Local Open Scope R_scope.

(** A mask whose rows do not have the current sequence length cannot be
    expanded: the [view] fails. *)
Theorem create_mask_shape_mismatch {A} (H S' cur : nat) (mask : list (list A)) :
  mask <> [] -> (0 < H)%nat ->
  Forall (fun row => length row = S') mask -> S' <> cur ->
  create_mask H mask cur = Raise (RuntimeError "shape is invalid for input size").
Proof.
  intros Hne HH Hrect Hneq. unfold create_mask, unsqueeze1.
  rewrite repeat1_singletons.
  set (rows := concat (map (replicate H) mask)).
  assert (Hrows : Forall (fun row => length row = S') rows).
  { unfold rows. apply Forall_concat, Forall_fmap.
    eapply Forall_impl; [exact Hrect|].
    intros row Hrow. simpl. by apply Forall_replicate. }
  assert (Hlen : length rows = (length mask * H)%nat).
  { unfold rows. rewrite (concat_length_uniform H).
    - by rewrite length_map.
    - apply Forall_fmap, Forall_true. intros row. simpl. apply length_replicate. }
  unfold view3. rewrite (concat_length_uniform S') by done. rewrite Hlen.
  assert (0 < length mask)%nat by (destruct mask; [done|simpl; lia]).
  destruct (Nat.eqb_spec (length mask * H * S') (length mask * H * 1 * cur)); [|done].
  exfalso. nia.
Qed.

Lemma create_mask_shape_mismatch_witness :
  create_mask 2 [[1; 1; 0]]%Z 2 = Raise (RuntimeError "shape is invalid for input size").
Proof.
  apply (create_mask_shape_mismatch 2 3 2 [[1; 1; 0]]%Z); [done|lia| |lia].
  repeat constructor.
Defined.

Lemma bool_index_all {A} (l : list A) (ms : list Z) :
  length ms = length l -> Forall (fun m => m = 1%Z) ms ->
  map fst (filter (fun p => p.2 = true) (zip l (map (fun m => (m =? 1)%Z) ms))) = l.
Proof.
  intros Hlen Hall. revert l Hlen.
  induction Hall as [|m ms -> _ IH]; intros [|x l] Hlen; cbn [length] in Hlen;
    try done.
  cbn [map zip zip_with]. change (1 =? 1)%Z with true.
  rewrite filter_cons, decide_True by done. cbn [map fst].
  change (zip_with pair l ?k) with (zip l k). rewrite IH by lia. done.
Qed.

(** With a mask of ones the masked loss is the plain cross-entropy of the
    whole batch. *)
Theorem masked_loss_all_ones (self : GPTModel) (outputs : tensor3)
    (targets : list (list Z)) (masks : mask2) :
  (0 < vocab_size self)%nat ->
  Forall (fun row => length row = vocab_size self) (concat outputs) ->
  length (concat targets) = length (concat outputs) ->
  length (concat masks) = length (concat outputs) ->
  Forall (fun m => m = 1%Z) (concat masks) ->
  masked_loss self outputs targets masks =
    cross_entropy (vocab_size self) (concat outputs) (concat targets).
Proof.
  intros HV Hrows Ht Hm Hones. unfold masked_loss.
  rewrite view_rows_concat by done. cbn [rbind].
  unfold bool_index. rewrite !length_map, Hm, Nat.eqb_refl. cbn [rbind].
  rewrite Ht, Nat.eqb_refl. cbn [rbind].
  by rewrite !bool_index_all by (done || congruence).
Qed.

Lemma masked_loss_all_ones_witness :
  masked_loss Toy.model Toy.outputs Toy.targets [[1; 1]]%Z =
    cross_entropy 3 (concat Toy.outputs) (concat Toy.targets).
Proof.
  apply (masked_loss_all_ones Toy.model Toy.outputs Toy.targets [[1; 1]]%Z).
  - simpl. lia.
  - repeat constructor.
  - reflexivity.
  - reflexivity.
  - repeat constructor.
Defined.

Lemma optimizer_fold_lookup (update : loc -> tensor -> tensor) (s : store)
    (ls : list loc) (l : loc) :
  NoDup ls ->
  foldr (fun l s => alter (update l) l s) s ls !! l =
    if decide (l ∈ ls) then update l <$> s !! l else s !! l.
Proof.
  induction 1 as [|l0 ls Hnotin Hnd IH]; cbn [foldr].
  - destruct (decide (l ∈ [])) as [Hin%elem_of_nil|]; done.
  - destruct (decide (l = l0)) as [->|Hne].
    + rewrite lookup_alter_eq, IH.
      destruct (decide (l0 ∈ ls)); [done|].
      destruct (decide (l0 ∈ l0 :: ls)) as [|Hnin]; [done|].
      exfalso. apply Hnin. by left.
    + rewrite lookup_alter_ne by done. rewrite IH.
      destruct (decide (l ∈ ls)) as [Hin|Hnin];
        destruct (decide (l ∈ l0 :: ls)) as [Hin'|Hnin']; try done.
      * exfalso. apply Hnin'. by right.
      * by apply elem_of_cons in Hin' as [?|?].
Qed.

(** An optimizer step updates every parameter exactly once, in place: the
    tensor shared by the embedding and the output projection is updated
    once, not twice; other locations are left alone and nothing is
    allocated. *)
Theorem optimizer_step_updates_once (self : GPTModel)
    (update : loc -> tensor -> tensor) (s : store) :
  (forall l, l ∈ parameters self ->
     optimizer_step self update s !! l = update l <$> s !! l) /\
  optimizer_step self update s !! embedding_weight self =
    update (embedding_weight self) <$> s !! embedding_weight self /\
  (forall l, l ∉ parameters self -> optimizer_step self update s !! l = s !! l) /\
  dom (optimizer_step self update s) = dom s.
Proof.
  assert (Hin : forall l, l ∈ parameters self ->
            optimizer_step self update s !! l = update l <$> s !! l).
  { intros l Hl. unfold optimizer_step.
    rewrite optimizer_fold_lookup by apply NoDup_remove_dups.
    by rewrite decide_True. }
  split; [exact Hin|]. split.
  - apply Hin. unfold parameters. apply elem_of_remove_dups. right. by left.
  - split.
    + intros l Hl. unfold optimizer_step.
      rewrite optimizer_fold_lookup by apply NoDup_remove_dups.
      by rewrite decide_False.
    + clear Hin. unfold optimizer_step.
      induction (parameters self) as [|l ls IH]; cbn [foldr]; [done|].
      rewrite dom_alter_L. exact IH.
Qed.

Lemma optimizer_step_updates_once_witness :
  optimizer_step Toy.model (fun _ _ => T1 []) Toy.params !! 1%positive =
    (fun _ => T1 []) <$> Toy.params !! 1%positive.
Proof.
  apply (proj1 (optimizer_step_updates_once Toy.model (fun _ _ => T1 []) Toy.params)).
  unfold parameters. apply elem_of_remove_dups. right. by left.
Defined.

End ModelErrors.

(** ** Inputs the forward pass refuses *)

Section ForwardErrors.
Import Torch Model.
Local Open Scope R_scope.

Lemma rmap_raise {A B} (f : A -> result B) (l : list A) (e : exn) :
  Forall (fun a => f a = Raise e \/ exists b, f a = Ok b) l ->
  Exists (fun a => f a = Raise e) l ->
  rmap f l = Raise e.
Proof.
  intros Hall Hex. induction Hall as [|a l Ha Hall IH]; [by inversion Hex|].
  simpl. destruct Ha as [Ha|[b Ha]]; rewrite Ha; [done|]. cbn [rbind].
  inversion Hex as [? ? Hbad|? ? Hex']; subst; [congruence|].
  by rewrite IH.
Qed.

Lemma rmap_raise_head {A B} (f : A -> result B) (a : A) (l : list A) (e : exn) :
  f a = Raise e -> rmap f (a :: l) = Raise e.
Proof. intros H. simpl. by rewrite H. Qed.

Lemma bind_raise {A B} (c : W A) (k : A -> W B) log e log1 :
  c log = (Raise e, log1) -> bind c k log = (Raise e, log1).
Proof. intros H. unfold bind. by rewrite H. Qed.

(** A token outside the embedding table stops the forward pass with an
    [IndexError] before any layer runs: the call is all the log gains. *)
Theorem forward_out_of_vocabulary self s x mask log (w : list (list R))
    (row : list Z) (token : Z) :
  s !! embedding_weight self = Some (T2 w) ->
  row ∈ x -> token ∈ row ->
  (token < 0 \/ Z.of_nat (length w) <= token)%Z ->
  forward self s x mask log = (Raise IndexError, log ++ [EvForward x mask]).
Proof.
  intros Hw Hrow Htoken Hbad. unfold forward.
  rewrite (bind_run _ _ log tt (log ++ [EvForward x mask])) by done.
  rewrite (bind_run _ _ _ w (log ++ [EvForward x mask]))
    by (unfold lift, read2; by rewrite Hw).
  apply bind_raise. unfold lift. f_equal. unfold embedding.
  set (lookup_token := fun token : Z =>
         if (token <? 0)%Z then Raise IndexError
         else match w !! Z.to_nat token with
              | Some r => Ok r
              | None => Raise IndexError
              end).
  assert (Htotal : forall t, lookup_token t = Raise IndexError \/
                             exists b, lookup_token t = Ok b).
  { intros t. unfold lookup_token. destruct (t <? 0)%Z; [by left|].
    destruct (w !! Z.to_nat t); [right; by eexists|by left]. }
  assert (Htok : lookup_token token = Raise IndexError).
  { unfold lookup_token. destruct (Z.ltb_spec token 0); [done|].
    rewrite (proj2 (lookup_ge_None _ _)); [done|]. lia. }
  apply rmap_raise.
  - apply Forall_true. intros r.
    destruct (rmap lookup_token r) as [b|e] eqn:Hr; [right; by eexists|left].
    f_equal. clear -Hr Htotal. induction r as [|t r IH]; simpl in Hr; [done|].
    destruct (Htotal t) as [Ht|[b Ht]]; rewrite Ht in Hr; cbn [rbind] in Hr;
      [congruence|].
    destruct (rmap lookup_token r) as [bs|e']; cbn [rbind] in Hr; [done|].
    injection Hr as <-. by apply IH.
  - apply Exists_exists. exists row. split; [done|].
    apply rmap_raise; [by apply Forall_true|].
    apply Exists_exists. by exists token.
Qed.

Lemma forward_out_of_vocabulary_witness :
  forward Toy.model Toy.params [[0; 3]%Z] None [] =
    (Raise IndexError, [] ++ [EvForward [[0; 3]%Z] None]).
Proof.
  apply (forward_out_of_vocabulary Toy.model Toy.params [[0; 3]%Z] None []
           [[0; 1]; [0; 0]; [0; 2]] [0; 3]%Z 3).
  - unfold Toy.params. change (embedding_weight Toy.model) with 1%positive.
    rewrite lookup_insert_ne by done. by rewrite lookup_insert_eq.
  - by left.
  - right. by left.
  - right. simpl. lia.
Defined.

Lemma rmap_length {A B} (f : A -> result B) (l : list A) (l' : list B) :
  rmap f l = Ok l' -> length l' = length l.
Proof. intros H%rmap_Forall2. symmetry. by eapply Forall2_length. Qed.

Lemma broadcast_mismatch {A B C} (f : A -> B -> result C) (a : list A) (b : list B) :
  length a <> length b -> (1 < length a)%nat -> (1 < length b)%nat ->
  broadcast f a b =
    Raise (RuntimeError "The size of tensor a must match the size of tensor b").
Proof.
  intros Hne Ha Hb. unfold broadcast.
  destruct (Nat.eqb_spec (length a) (length b)); [done|].
  destruct a as [|a0 [|a1 a]]; simpl in Ha; try lia.
  destruct b as [|b0 [|b1 b]]; simpl in Hb; try lia. done.
Qed.

(** A sequence longer than the positional table (of more than one row)
    cannot be forwarded: the call raises. *)
Theorem forward_sequence_too_long self s (x : list (list Z)) mask log
    (pe : list (list R)) (cur : nat) :
  s !! pos_embbedings self = Some (T3 [pe]) ->
  (1 < length pe)%nat -> (length pe < cur)%nat ->
  x <> [] -> Forall (fun row => length row = cur) x ->
  exists e, (forward self s x mask log).1 = Raise e.
Proof.
  intros Hpos Hpe Hcur Hne Hrows. unfold forward.
  rewrite (bind_run _ _ log tt (log ++ [EvForward x mask])) by done.
  destruct (read2 s (embedding_weight self)) as [w|e];
    [|eexists; by erewrite bind_raise by reflexivity].
  rewrite (bind_run _ _ _ w (log ++ [EvForward x mask])) by reflexivity.
  destruct (embedding w x) as [x'|e] eqn:Hemb;
    [|eexists; by erewrite bind_raise by reflexivity].
  rewrite (bind_run _ _ _ x' (log ++ [EvForward x mask])) by reflexivity.
  cbv zeta.
  rewrite (bind_run _ _ _ [pe] (log ++ [EvForward x mask]))
    by (unfold lift, read3; by rewrite Hpos).
  assert (Hx' : Forall (fun r => length r = cur) x' /\ length x' = length x).
  { unfold embedding in Hemb. pose proof (rmap_length _ _ _ Hemb) as Hlen.
    split; [|done]. apply rmap_Forall2 in Hemb.
    apply Forall_forall. intros r [i Hi]%list_elem_of_lookup.
    destruct (Forall2_lookup_r _ _ _ _ _ Hemb Hi) as (row & Hrow & Hr).
    apply rmap_length in Hr. rewrite Hr.
    by apply (proj1 (Forall_forall _ _) Hrows), (list_elem_of_lookup_2 _ i). }
  destruct Hx' as [Hx' Hlen'].
  destruct x' as [|r0 x']; [destruct x; [done|simpl in Hlen'; lia]|].
  assert (Hr0 : length r0 = cur) by (by inversion Hx').
  cbn [hd map]. rewrite Hr0, take_ge by lia.
  assert (Hinner : broadcast (broadcast (fun a b : R => Ok (a + b))) r0 pe =
                   Raise (RuntimeError "The size of tensor a must match the size of tensor b"))
    by (apply broadcast_mismatch; lia).
  assert (Hadd : add3 (r0 :: x') [pe] =
                 Raise (RuntimeError "The size of tensor a must match the size of tensor b")).
  { unfold add3, broadcast at 1. destruct x' as [|r1 x'].
    - cbn [length Nat.eqb zip zip_with rmap fst snd]. by rewrite Hinner.
    - cbn [length Nat.eqb]. by apply rmap_raise_head. }
  eexists. by erewrite bind_raise by (unfold lift; by rewrite Hadd).
Qed.

Lemma forward_sequence_too_long_witness :
  exists e,
    (forward Toy.model Toy.params [[0; 1; 0; 1; 0]%Z] None []).1 = Raise e.
Proof.
  apply (forward_sequence_too_long Toy.model Toy.params [[0; 1; 0; 1; 0]%Z] None []
           [[0; 1]; [0; 1]; [0; 1]; [0; 1]] 5).
  - unfold Toy.params. change (pos_embbedings Toy.model) with 2%positive.
    by rewrite lookup_insert_eq.
  - simpl. lia.
  - simpl. lia.
  - done.
  - repeat constructor.
Defined.

End ForwardErrors.

(** ** The distribution handed to the sampler *)

Section NucleusShape.
Import Torch Predict.
Local Open Scope R_scope.

Context (sort : list R -> list (nat * R)) (Hsort : descending_sort sort).

(** What filtering leaves at an index. *)
Lemma filtered_lookup (logits : list R) (top_p : R) (out : list logit) i x :
  logits <> [] -> top_p_filtering sort logits top_p = Ok out -> logits !! i = Some x ->
  (out !! i = Some NegInf /\
   exists j c, sorted_indices sort logits !! S j = Some i /\
               cumulative_probs sort logits !! j = Some c /\ top_p < c) \/
  (out !! i = Some (Fin x) /\
   ~ exists j c, sorted_indices sort logits !! S j = Some i /\
                 cumulative_probs sort logits !! j = Some c /\ top_p < c).
Proof using Hsort.
  intros Hne Hrun Hx. rewrite (top_p_filtering_unfold sort Hsort) in Hrun by done.
  injection Hrun as <-. rewrite list_lookup_imap, Hx. simpl.
  destruct (bool_decide _) eqn:Hdec.
  - left. split; [done|]. apply bool_decide_eq_true_1 in Hdec.
    by apply (removed_iff sort Hsort) in Hdec.
  - right. split; [done|]. apply bool_decide_eq_false_1 in Hdec.
    intros H. by apply (removed_iff sort Hsort) in H.
Qed.

Lemma filtered_top_kept (logits : list R) (top_p : R) (out : list logit) :
  logits <> [] -> top_p_filtering sort logits top_p = Ok out ->
  exists i0 x0, out !! i0 = Some (Fin x0).
Proof using Hsort.
  intros Hne Hrun.
  assert (Hhead : exists i0, sorted_indices sort logits !! 0%nat = Some i0).
  { apply lookup_lt_is_Some. rewrite (sorted_indices_length sort Hsort).
    destruct logits; [done|simpl; lia]. }
  destruct Hhead as [i0 Hi0].
  destruct (sorted_indices_head_max sort Hsort logits i0 Hi0) as (x0 & _ & Hx0 & _).
  exists i0, x0.
  destruct (filtered_lookup logits top_p out i0 x0 Hne Hrun Hx0)
    as [[_ (j & c & Hj & _)]|[H _]]; [|done].
  pose proof (NoDup_lookup _ _ _ _ (sorted_indices_NoDup sort Hsort logits) Hi0 Hj). lia.
Qed.

Lemma weight_of_nonneg (x : logit) : 0 <= weight_of x.
Proof. destruct x; simpl; [apply Rlt_le, exp_pos|lra]. Qed.

Lemma sum_list_weights_pos (l : list logit) i x :
  l !! i = Some (Fin x) -> 0 < sum_list (map weight_of l).
Proof.
  assert (Hnn : forall l', 0 <= sum_list (map weight_of l')).
  { induction l' as [|y l' IH]; simpl; [lra|]. pose proof (weight_of_nonneg y). lra. }
  revert i. induction l as [|y l IH]; intros i Hi; [done|]. simpl.
  destruct i as [|i]; simpl in Hi.
  - injection Hi as ->. simpl. pose proof (exp_pos x). pose proof (Hnn l). lra.
  - pose proof (weight_of_nonneg y). specialize (IH i Hi). lra.
Qed.

(** After filtering, the probabilities given to the sampler form a
    distribution: one per token, none negative, summing to one, zero at the
    filtered tokens and positive at the others. *)
Theorem filtered_probabilities_distribution (logits : list R) (top_p : R) :
  logits <> [] ->
  exists out,
    top_p_filtering sort logits top_p = Ok out /\
    length (softmax_filtered out) = length logits /\
    Forall (fun q => 0 <= q) (softmax_filtered out) /\
    sum_list (softmax_filtered out) = 1 /\
    (forall i, out !! i = Some NegInf -> softmax_filtered out !! i = Some 0) /\
    (forall i x, out !! i = Some (Fin x) ->
       exists q, softmax_filtered out !! i = Some q /\ 0 < q).
Proof using Hsort.
  intros Hne. destruct (top_p_filtering_total sort Hsort logits top_p Hne) as [out Hrun].
  exists out. split; [done|].
  destruct (filtered_top_kept logits top_p out Hne Hrun) as (i0 & x0 & Hi0).
  pose proof (sum_list_weights_pos out i0 x0 Hi0) as Hpos.
  unfold softmax_filtered. split.
  { rewrite !length_map. rewrite (top_p_filtering_unfold sort Hsort) in Hrun by done.
    injection Hrun as <-. apply length_imap. }
  split.
  { apply Forall_fmap, Forall_fmap, Forall_true. intros y. simpl.
    apply Rmult_le_pos; [apply weight_of_nonneg|].
    apply Rlt_le, Rinv_0_lt_compat, Hpos. }
  split; [rewrite sum_list_scale; by field_simplify_eq; [|lra]|].
  split.
  - intros i Hi. rewrite !list_lookup_fmap, Hi. simpl. f_equal. lra.
  - intros i x Hi. eexists. split; [by rewrite !list_lookup_fmap, Hi|].
    simpl. apply Rdiv_lt_0_compat; [apply exp_pos|done].
Qed.



End NucleusShape.

Section NucleusShapeExamples.
Import Torch Predict.
Local Open Scope R_scope.

Lemma filtered_probabilities_distribution_witness :
  exists out,
    top_p_filtering stable_sort [0; 1] 0.9 = Ok out /\
    length (softmax_filtered out) = 2%nat /\
    sum_list (softmax_filtered out) = 1.
Proof.
  destruct (filtered_probabilities_distribution stable_sort stable_sort_descending
              [0; 1] 0.9 ltac:(done))
    as (out & Hrun & Hlen & _ & Hsum & _).
  by exists out.
Defined.


End NucleusShapeExamples.

(** ** What a call of the generator can return *)

Section StripFacts.
Import Dataset.

Lemma lstrip_spaces (s : list ascii) :
  Forall (fun c => is_space c = true) s -> lstrip s = [].
Proof. induction 1 as [|c s Hc _ IH]; simpl; [done|]. by rewrite Hc. Qed.

Lemma lstrip_nil (s : list ascii) :
  lstrip s = [] -> Forall (fun c => is_space c = true) s.
Proof.
  intros H. destruct (lstrip_decompose s) as (sp & Hs & Hsp).
  rewrite H, app_nil_r in Hs. by subst.
Qed.

Lemma lstrip_head (s : list ascii) c rest :
  lstrip s = c :: rest -> is_space c = false.
Proof.
  induction s as [|c0 s IH]; simpl; [done|].
  destruct (is_space c0) eqn:Hc0; [done|]. by intros [= <- _].
Qed.

(** [strip] leaves nothing exactly of the strings made of white space. *)
Lemma strip_blank (text : string) :
  strip text = EmptyString <->
  Forall (fun c => is_space c = true) (list_ascii_of_string text).
Proof.
  unfold strip. split.
  - intros H. apply (f_equal list_ascii_of_string) in H.
    rewrite list_ascii_of_string_of_list_ascii in H. simpl in H.
    apply (f_equal (fun l => rev l)) in H. rewrite rev_involutive in H. simpl in H.
    apply lstrip_nil in H.
    destruct (lstrip (list_ascii_of_string text)) as [|c rest] eqn:Hl;
      [by apply lstrip_nil|].
    apply lstrip_head in Hl.
    assert (Hc : is_space c = true).
    { apply (proj1 (Forall_forall _ _) H). apply list_elem_of_In, in_rev.
      rewrite rev_involutive. by left. }
    congruence.
  - intros H. by rewrite (lstrip_spaces _ H).
Qed.

End StripFacts.

Section ForwardShape.
Import Torch Model.
Local Open Scope R_scope.

Lemma embedding_shape (w : list (list R)) (x : list (list Z)) (x' : tensor3) cur :
  embedding w x = Ok x' -> Forall (fun row => length row = cur) x ->
  Forall (fun r => length r = cur) x' /\ length x' = length x.
Proof.
  intros Hemb Hrows. unfold embedding in Hemb.
  pose proof (rmap_length _ _ _ Hemb) as Hlen. split; [|done].
  apply rmap_Forall2 in Hemb.
  apply Forall_forall. intros r [i Hi]%list_elem_of_lookup.
  destruct (Forall2_lookup_r _ _ _ _ _ Hemb Hi) as (row & Hrow & Hr).
  apply rmap_length in Hr. rewrite Hr.
  by apply (proj1 (Forall_forall _ _) Hrows), (list_elem_of_lookup_2 _ i).
Qed.

Lemma add3_positions_mismatch (r0 : list (list R)) (x' : tensor3) (pe : list (list R)) :
  (1 < length pe)%nat -> (length pe < length r0)%nat ->
  add3 (r0 :: x') [take (length r0) pe] =
    Raise (RuntimeError "The size of tensor a must match the size of tensor b").
Proof.
  intros Hpe Hcur. rewrite take_ge by lia.
  assert (Hinner : broadcast (broadcast (fun a b : R => Ok (a + b))) r0 pe =
                   Raise (RuntimeError "The size of tensor a must match the size of tensor b"))
    by (apply broadcast_mismatch; lia).
  unfold add3, broadcast at 1. destruct x' as [|r1 x'].
  - cbn [length Nat.eqb zip zip_with rmap fst snd]. by rewrite Hinner.
  - cbn [length Nat.eqb]. by apply rmap_raise_head.
Qed.

(** A forward pass that returns was given no more positions than the
    positional table has rows (when it has more than one). *)
Lemma forward_ok_length self s (x : list (list Z)) mask log out log'
    (pe : list (list R)) (cur : nat) :
  forward self s x mask log = (Ok out, log') ->
  s !! pos_embbedings self = Some (T3 [pe]) -> (1 < length pe)%nat ->
  x <> [] -> Forall (fun row => length row = cur) x ->
  (cur <= length pe)%nat.
Proof.
  intros H Hpos Hpe Hne Hrows. unfold forward in H.
  apply bind_ok in H as (u & log1 & _ & H).
  apply bind_ok in H as (w & log2 & _ & H).
  apply bind_ok in H as (x1 & log3 & [Hemb _]%lift_ok & H).
  apply bind_ok in H as (pos & log4 & [Hread _]%lift_ok & H).
  apply bind_ok in H as (x2 & log5 & [Hadd _]%lift_ok & _).
  unfold read3 in Hread. rewrite Hpos in Hread. injection Hread as <-.
  destruct (embedding_shape _ _ _ cur Hemb Hrows) as [Hx1 Hlen].
  destruct x1 as [|r0 x1]; [destruct x; [done|simpl in Hlen; lia]|].
  assert (Hr0 : length r0 = cur) by (by inversion Hx1).
  cbn [hd map] in Hadd.
  destruct (le_lt_dec cur (length pe)) as [|Hlt]; [done|].
  rewrite add3_positions_mismatch in Hadd by lia. done.
Qed.

End ForwardShape.

Section GenerationFacts.
Import Torch Model Predict.
Local Open Scope R_scope.

Context (sort : list R -> list (nat * R)).
Context {RNG : Type} (categorical_sample : RNG -> list R -> Z * RNG).
Context (tokenizer : Tokenizer) (model : GPTModel) (s : store).
Context (temperature top_p : R).

Local Abbreviation step := (decode_step sort categorical_sample tokenizer model s temperature top_p).
Local Abbreviation loop := (decode_loop sort categorical_sample tokenizer model s temperature top_p).
Local Abbreviation generate := (generate_text sort categorical_sample tokenizer model s temperature top_p).

(** An iteration that does not raise ran the model on the sequence so far
    and either stopped on the end-of-text token or appended one other
    token. *)
Lemma decode_step_ok input_ids g log r g' log' :
  step input_ids g log = (Ok (r, g'), log') ->
  exists outputs logf probabilities,
    forward model s [input_ids] None log = (Ok outputs, logf) /\
    ((r = None /\
      log' = logf ++ [EvSample probabilities;
                      EvPrint "End of sequence token reached."]) \/
     (exists next, r = Some (input_ids ++ [next]) /\
                   next <> eot_token tokenizer /\
                   log' = logf ++ [EvSample probabilities])).
Proof.
  unfold decode_step. intros H.
  apply bind_ok in H as (outputs & logf & Hf & H).
  apply bind_ok in H as (row & l2 & [_ ->]%lift_ok & H).
  destruct (bool_decide (temperature = 0));
    [destruct row; by apply lift_ok in H as [? _]|].
  apply bind_ok in H as (filtered & l3 & [_ ->]%lift_ok & H).
  apply bind_ok in H as (u & l4 & ->%tell_ok & H).
  exists outputs, logf, (softmax_filtered filtered). split; [done|].
  destruct (categorical_sample g _) as [next g1].
  destruct (Z.eqb_spec next (eot_token tokenizer)) as [->|Hnext].
  - left. apply bind_ok in H as (u' & l5 & ->%tell_ok & [[= <- <-] ->]%ret_ok).
    by rewrite <- app_assoc.
  - right. apply ret_ok in H as [[= -> ->] ->]. by exists next.
Qed.

Lemma decode_loop_ok n input_ids g log ids' g' log' :
  loop n input_ids g log = (Ok (ids', g'), log') ->
  exists suffix new,
    ids' = input_ids ++ suffix /\ log' = log ++ new /\
    (length suffix <= n)%nat /\ (eot_token tokenizer ∉ suffix) /\
    (forall k, (k <= length suffix)%nat -> (k < n)%nat ->
       exists lg out lg',
         forward model s [input_ids ++ take k suffix] None lg = (Ok out, lg')) /\
    ((length suffix < n)%nat -> EvPrint "End of sequence token reached." ∈ new).
Proof.
  revert input_ids g log. induction n as [|n IH]; intros input_ids g log H; simpl in H.
  - apply ret_ok in H as [[= -> ->] ->]. exists [], [].
    rewrite !app_nil_r. repeat split; [done| |intros; lia|simpl; lia].
    by intros ?%elem_of_nil.
  - apply bind_ok in H as ([r g1] & log1 & Hstep & H).
    apply decode_step_ok in Hstep
      as (outputs & logf & probabilities & Hf & [[Hr Hlog]|(next & Hr & Hnext & Hlog)]);
      subst r log1.
    + apply ret_ok in H as [[= -> ->] ->].
      pose proof (forward_unmasked_log _ _ _ _ _ _ Hf) as ->.
      eexists [], _.
      split; [by rewrite app_nil_r|]. split; [by rewrite <- app_assoc|].
      split; [simpl; lia|]. split; [by intros ?%elem_of_nil|]. split.
      * intros k Hk _. simpl in Hk. assert (k = 0%nat) as -> by lia.
        simpl. rewrite app_nil_r. by eexists _, _, _.
      * intros _. apply elem_of_app. right.
        apply elem_of_cons. right. apply elem_of_cons. by left.
    + apply IH in H as (suffix & new & -> & -> & Hlen & Heot & Hfw & Hend).
      pose proof (forward_unmasked_log _ _ _ _ _ _ Hf) as ->.
      eexists (next :: suffix), _.
      split; [by rewrite <- app_assoc|].
      split; [by rewrite <- !app_assoc|].
      split; [simpl; lia|]. split.
      { intros [E|E]%elem_of_cons; [by apply Hnext|by apply Heot]. }
      split.
      * intros [|k] Hk Hkn.
        -- simpl. rewrite app_nil_r. by eexists _, _, _.
        -- simpl in Hk. destruct (Hfw k ltac:(lia) ltac:(lia)) as (lg & out & lg' & Hk').
           exists lg, out, lg'. simpl. by rewrite <- app_assoc in Hk'.
      * intros Hlt. simpl in Hlt. apply elem_of_app. right.
        apply elem_of_app. right. apply Hend. lia.
Qed.

Lemma generate_text_ok input_text g log generated_text ids g' log' :
  generate input_text g log = (Ok (generated_text, ids, g'), log') ->
  exists prompt log1,
    encode tokenizer input_text = Ok prompt /\ prompt <> [] /\
    loop (sequence_length model) prompt g (log ++ [EvPrint "Encoded input ids"])
      = (Ok (ids, g'), log1) /\
    decode tokenizer ids = Ok generated_text /\
    log' = log1 ++ [EvPrint "Generated text"].
Proof.
  unfold generate_text. intros H.
  destruct (bool_decide _); [done|].
  apply bind_ok in H as (prompt & l1 & [Henc ->]%lift_ok & H).
  destruct prompt as [|t prompt]; [done|].
  apply bind_ok in H as (u & l2 & ->%tell_ok & H).
  apply bind_ok in H as ([ids1 g1] & log1 & Hloop & H).
  apply bind_ok in H as (text' & l3 & [Hdec ->]%lift_ok & H).
  apply bind_ok in H as (u' & l4 & ->%tell_ok & [[= <- <- <-] ->]%ret_ok).
  by exists (t :: prompt), log1.
Qed.

(** White-space-only text, and text that encodes to no token, are refused
    with a [ValueError] before anything is printed or the model is
    called. *)
Theorem generate_text_rejects input_text g log :
  Forall (fun c => Dataset.is_space c = true) (list_ascii_of_string input_text) \/
  encode tokenizer input_text = Ok [] ->
  exists msg, generate input_text g log = (Raise (ValueError msg), log).
Proof.
  intros H. unfold generate_text.
  destruct (bool_decide _) eqn:Hstrip; [by eexists|].
  destruct H as [H%strip_blank|H]; [by apply bool_decide_eq_false_1 in Hstrip|].
  eexists. unfold bind, lift. by rewrite H.
Qed.


(** With a positional table of [sequence_length] rows (more than one), a
    prompt of two or more tokens can only be completed by drawing the
    end-of-text token: a call that returns has printed that it was reached,
    and returns at most [sequence_length] tokens. *)
Theorem generate_text_long_prompt input_text g log generated_text ids g' log'
    (pe : list (list R)) (prompt : list Z) :
  s !! pos_embbedings model = Some (T3 [pe]) ->
  length pe = sequence_length model -> (1 < sequence_length model)%nat ->
  encode tokenizer input_text = Ok prompt -> (2 <= length prompt)%nat ->
  generate input_text g log = (Ok (generated_text, ids, g'), log') ->
  (length ids <= sequence_length model)%nat /\
  exists new, log' = log ++ new /\
              EvPrint "End of sequence token reached." ∈ new.
Proof.
  intros Hpos Hpe Hseq Henc Hprompt
    (prompt' & log1 & Henc' & Hne & Hloop & Hdec & ->)%generate_text_ok.
  assert (prompt' = prompt) as -> by congruence.
  apply decode_loop_ok in Hloop as (suffix & new & -> & -> & Hlen & Heot & Hfw & Hend).
  assert (Hbound : forall k, (k <= length suffix)%nat ->
            (k < sequence_length model)%nat ->
            (length prompt + k <= sequence_length model)%nat).
  { intros k Hk Hkn. destruct (Hfw k Hk Hkn) as (lg & out & lg' & Hrun).
    rewrite <- Hpe.
    eapply (forward_ok_length _ _ _ _ _ _ _ pe (length prompt + k) Hrun);
      [done|lia|done|].
    constructor; [|constructor]. rewrite length_app, length_take. lia. }
  assert (Hshort : (length suffix < sequence_length model)%nat).
  { destruct (le_lt_dec (sequence_length model) (length suffix)) as [Hge|]; [|done].
    specialize (Hbound (sequence_length model - 1)%nat ltac:(lia) ltac:(lia)). lia. }
  split.
  - rewrite length_app. apply (Hbound (length suffix)); [done|lia].
  - exists ([EvPrint "Encoded input ids"] ++ new ++ [EvPrint "Generated text"]).
    split; [by rewrite <- !app_assoc|].
    apply elem_of_app. right. apply elem_of_app. left. by apply Hend.
Qed.

End GenerationFacts.

Section GenerationExamples.
Import Torch Model Predict.
Local Open Scope R_scope.

Lemma generate_text_rejects_witness :
  exists msg,
    generate_text stable_sort Toy.always_eot Toy.tokenizer Toy.model Toy.params 1 0.9 "  " tt [] =
      (Raise (ValueError msg), []).
Proof.
  apply (generate_text_rejects stable_sort Toy.always_eot Toy.tokenizer Toy.model Toy.params
           1 0.9 "  " tt []).
  left. repeat constructor.
Defined.


(** The toy model on the prompt "AB": two positions, three logits each. *)
Lemma toy_forward_two (log : list event) :
  exists l0 l1 l2 m0 m1 m2 logf,
    forward Toy.model Toy.params [[0; 1]%Z] None log =
      (Ok [[[l0; l1; l2]]; [[m0; m1; m2]]], logf).
Proof.
  unfold forward.
  change (weight (output_layer Toy.model)) with (embedding_weight Toy.model).
  rewrite toy_read2, toy_read3.
  eexists _, _, _, _, _, _, _. reflexivity.
Qed.

Lemma toy_strip_two : Dataset.strip "AB" <> EmptyString.
Proof. vm_compute. discriminate. Qed.

Lemma toy_run_two :
  exists log',
    generate_text stable_sort Toy.always_eot Toy.tokenizer Toy.model Toy.params 1 0.9
                  "AB" tt [] = (Ok ("AB"%string, [0; 1]%Z, tt), log').
Proof.
  destruct (toy_forward_two ([] ++ [EvPrint "Encoded input ids"]))
    as (l0 & l1 & l2 & m0 & m1 & m2 & logf & Hf).
  destruct (top_p_filtering_total stable_sort stable_sort_descending
              (map (fun x => x / 1) [l0; l1; l2]) 0.9)
    as [filtered Hfiltered]; [done|].
  eexists.
  by rewrite (generate_text_eot_run stable_sort Toy.always_eot Toy.tokenizer Toy.model
               Toy.params 1 0.9 "AB" tt tt [] [0; 1]%Z _ _ _ _ _ filtered "AB" 3
               ltac:(lra) toy_strip_two eq_refl ltac:(done) eq_refl Hf eq_refl eq_refl
               Hfiltered eq_refl eq_refl).
Qed.

Lemma generate_text_long_prompt_witness :
  exists log',
    generate_text stable_sort Toy.always_eot Toy.tokenizer Toy.model Toy.params 1 0.9
                  "AB" tt [] = (Ok ("AB"%string, [0; 1]%Z, tt), log') /\
    (length [0; 1]%Z <= sequence_length Toy.model)%nat /\
    exists new, log' = [] ++ new /\
                EvPrint "End of sequence token reached." ∈ new.
Proof.
  destruct toy_run_two as [log' Hrun]. exists log'. split; [exact Hrun|].
  apply (generate_text_long_prompt stable_sort Toy.always_eot Toy.tokenizer Toy.model Toy.params
           1 0.9 "AB" tt [] "AB" [0; 1]%Z tt log'
           [[0; 1]; [0; 1]; [0; 1]; [0; 1]] [0; 1]%Z).
  - unfold Toy.params. change (pos_embbedings Toy.model) with 2%positive.
    by rewrite lookup_insert_eq.
  - reflexivity.
  - simpl. lia.
  - reflexivity.
  - simpl. lia.
  - exact Hrun.
Defined.

End GenerationExamples.
